(** * Witness-solving kernel of gnark: terms, hints and the solution state

    A shallow embedding of
    - [internal/backend/bls12-381/cs/solution.go] (the per-solve state, term
      evaluation, hint resolution and the log evaluator),
    - the [hint] package (annotated functions, fixed-arity wrappers, the
      process-wide registry),
    - [compiled.Variable] (linear expressions of terms),
    followed by the properties of these functions.

    Conventions.  A Go [int] is a [Z] (64-bit two's complement, wrap-around
    written with [int_wrap]); a slice is a [list] indexed by a [Z], and an
    index outside the slice is a run-time panic; a Go map is a [gmap]; a
    function that can panic returns an [outcome]. *)

From Stdlib Require Import ZArith Znumtheory Lia String Ascii List.
From stdpp Require Import base numbers list gmap strings pretty.

Local Open Scope Z_scope.

(** ** Panics

    A Go panic unwinds the whole solve: nothing of the state survives it. *)

Inductive outcome (A : Type) : Type :=
| Ok (a : A)
| Panic (msg : string).
Arguments Ok {A} a.
Arguments Panic {A} msg.

Definition bind {A B : Type} (o : outcome A) (k : A -> outcome B) : outcome B :=
  match o with
  | Ok a => k a
  | Panic msg => Panic msg
  end.

Notation "'let*' x ':=' o 'in' k" := (bind o (fun x => k))
  (at level 10, x pattern, o at level 200, k at level 200, only parsing).

(** The run-time's own panic when a slice is indexed outside its bounds. *)
Definition index_out_of_range : string := "runtime error: index out of range"%string.

(** [len(l)] as a Go [int]. *)
Definition len {A : Type} (l : list A) : Z := Z.of_nat (length l).

(** [l[i]] for a Go [int] index. *)
Definition index {A : Type} (l : list A) (i : Z) : outcome A :=
  if i <? 0 then Panic index_out_of_range
  else match l !! Z.to_nat i with
       | Some a => Ok a
       | None => Panic index_out_of_range
       end.

(** [l[i] = a] for a Go [int] index. *)
Definition store {A : Type} (l : list A) (i : Z) (a : A) : outcome (list A) :=
  if i <? 0 then Panic index_out_of_range
  else if i <? len l then Ok (<[Z.to_nat i := a]> l)
  else Panic index_out_of_range.

(** 64-bit signed wrap-around of the Go [int] type. *)
Definition max_int : Z := 2 ^ 63 - 1.
Definition int_wrap (z : Z) : Z := (z + 2 ^ 63) mod 2 ^ 64 - 2 ^ 63.

(** ** The scalar field of BLS12-381 ([fr.Element])

    An element is kept by its regular (non-Montgomery) representative; the
    representative of a well-formed element lies in [0, Modulus). *)

Module fr.

Definition Modulus : Z :=
  52435875175126190479447740508185965837690552500527637822603658699938581184513.

Definition Element : Type := Z.

(** The zero value [fr.Element{}]. *)
Definition zero : Element := 0.

Definition canonical (x : Element) : Prop := 0 <= x < Modulus.

Definition Add (x y : Element) : Element := (x + y) mod Modulus.
Definition Double (x : Element) : Element := (x + x) mod Modulus.
Definition Neg (x : Element) : Element := if x =? 0 then 0 else Modulus - x.
Definition Mul (x y : Element) : Element := (x * y) mod Modulus.

(** Conversions from and to [big.Int]. *)
Definition SetBigInt (v : Z) : Element := v mod Modulus.
Definition ToBigIntRegular (x : Element) : Z := x.

(** The literal field elements behind the reserved coefficients. *)
Definition one : Element := 1.
Definition two : Element := 2.
Definition minusOne : Element := Modulus - 1.

End fr.

(** ** Elliptic curve identities ([ecc.ID]) *)

Module ecc.
Inductive ID : Type := UNKNOWN | BN254 | BLS12_377 | BLS12_381 | BLS24_315 | BW6_761.
End ecc.

(** ** Go [error] values produced by the modelled code *)

Inductive error : Type :=
| ErrMissingHint                       (* "missing hint function" *)
| ErrWireNotInstantiated               (* "expected wire to be instantiated while evaluating hint" *)
| ErrInputArity (got expected : Z)     (* "input has %d elements, expected %d" *)
| ErrResultArity (got expected : Z)    (* "result has %d elements, expected %d" *)
| ErrDuplicateHint (id : Z)            (* "duplicate hint function %s" *)
| ErrHint (reason : string).           (* whatever a hint's own computation reports *)

(** ** Package [compiled]: terms and linear expressions *)

Module compiled.

(** Modelled from the spec: the declaration of the visibility tag is not
    part of the sources at hand; "one of Public, Secret, Internal,
    Virtual". *)
Inductive Visibility : Type := Public | Secret | Internal | Virtual.

Definition Visibility_eqb (a b : Visibility) : bool :=
  match a, b with
  | Public, Public | Secret, Secret | Internal, Internal | Virtual, Virtual => true
  | _, _ => false
  end.

(** Modelled from the spec: the declaration of [Term] is not part of the
    sources at hand; "an immutable triple (coefficientID, wireID,
    visibility)". *)
Record Term : Type := mkTerm { cID : Z; vID : Z; visibility : Visibility }.

Definition Unpack (t : Term) : Z * Z * Visibility := (cID t, vID t, visibility t).

(** Go's [==] on two terms. *)
Definition Term_eqb (a b : Term) : bool :=
  (cID a =? cID b) && (vID a =? vID b) && Visibility_eqb (visibility a) (visibility b).

(** The constants of the package that the solver refers to and whose
    declarations are not part of the sources at hand: the reserved
    coefficient identifiers and the delimiter of a log entry. *)
Class Consts : Type := {
  CoeffIdZero : Z;
  CoeffIdOne : Z;
  CoeffIdTwo : Z;
  CoeffIdMinusOne : Z;
  TermDelimitor : Term
}.

(** [Variable] (a reserved word here, hence the underscore): a slice of
    terms.  A Go slice is either [nil] ([None]) or backed by an array
    ([Some l]); [nil] has length zero. *)
Definition Variable_ : Type := option (list Term).

Definition terms (v : Variable_) : list Term := default [] v.

Definition isNil (v : Variable_) : bool :=
  match v with None => true | Some _ => false end.

(** [v.Len()] *)
Definition Len (v : Variable_) : Z := len (terms v).

(** [v.Clone()]: [make] returns a non-nil slice, [copy] fills it. *)
Definition Clone (v : Variable_) : Variable_ := Some (terms v).

(** The loop of [Equal]: [for i := 0; i < len(v); i++]. *)
Fixpoint Equal_loop (v o : list Term) : bool :=
  match v, o with
  | a :: v', b :: o' => if negb (Term_eqb a b) then false else Equal_loop v' o'
  | _, _ => true
  end.

(** [v.Equal(o)] *)
Definition Equal (v o : Variable_) : bool :=
  if negb (Len v =? Len o) then false
  else if negb (Bool.eqb (isNil v) (isNil o)) then false
  else Equal_loop (terms v) (terms o).

(** [v.IsConstant()] *)
Definition IsConstant (v : Variable_) : bool :=
  match terms v with
  | [t] => let '(_, vID, visibility) := Unpack t in
           (vID =? 0) && Visibility_eqb visibility Public
  | _ => false
  end.

(** Modelled from the spec: the declarations of [Hint] and [LogEntry] are
    not part of the sources at hand; "a hint function identifier plus a list
    of input LinearCombinations and a list of output wire IDs", "a format
    string plus a flat list of terms-to-resolve".  The fields are the ones
    [solution.go] reads. *)
Record Hint : Type := mkHint { ID : Z; Inputs : list Variable_; Wires : list Z }.

Record LogEntry : Type := mkLogEntry { Format : string; ToResolve : list Term }.

End compiled.

(** ** Package [hint]: annotated functions, fixed arities, the registry *)

Module hint.

(** [type ID uint32] *)
Definition ID : Type := Z.

(** A Go function value of type [Function].  Two things of it are
    observable: the name the run-time reports for its code pointer
    ([runtime.FuncForPC(...).Name()]) and what a call does.  A call reads
    [inputs], may overwrite the integers of [res], and returns an error or
    [nil]; it can also panic.  The list it yields is the contents of [res]
    after the call. *)
Record Function : Type := mkFunction {
  funcName : string;
  apply : ecc.ID -> list Z -> list Z -> outcome (list Z * option error)
}.

(** The interface [AnnotatedFunction], as the record of its methods.
    ([String] only serves messages and prints a code address; it is left
    out.) *)
Record AnnotatedFunction : Type := mkAnnotatedFunction {
  UUID : ID;
  Call : ecc.ID -> list Z -> list Z -> outcome (list Z * option error);
  TotalInputs : Z;
  TotalOutputs : Z -> Z
}.

Record fixedArgumentsFunction : Type := mkFixed {
  fn : Function;
  nIn : Z;
  nOut : Z
}.

Definition fixedArgumentsFunction_Call (h : fixedArgumentsFunction)
    (curveID : ecc.ID) (inputs res : list Z) : outcome (list Z * option error) :=
  if negb (len inputs =? nIn h) then
    Ok (res, Some (ErrInputArity (len inputs) (nIn h)))
  else if negb (len res =? nOut h) then
    Ok (res, Some (ErrResultArity (len res) (nOut h)))
  else apply (fn h) curveID inputs res.

Definition fixedArgumentsFunction_TotalInputs (h : fixedArgumentsFunction) : Z :=
  nIn h.

Definition fixedArgumentsFunction_TotalOutputs (h : fixedArgumentsFunction) (_ : Z) : Z :=
  nOut h.

(** *** FNV-1a, 32 bits ([hash/fnv]) *)

Definition offset32 : Z := 2166136261.
Definition prime32 : Z := 16777619.

Definition New32a : Z := offset32.

(** [hf.Write(data)]: for every byte, xor then multiply, on [uint32]. *)
Definition fnv_step (hash c : Z) : Z := (Z.lxor hash c * prime32) mod 2 ^ 32.

Definition Write (hash : Z) (data : list Z) : Z := fold_left fnv_step data hash.

Definition Sum32 (hash : Z) : Z := hash.

(** [uint64(x)] of a Go [int]. *)
Definition uint64 (x : Z) : Z := x mod 2 ^ 64.

(** [byte(x)] *)
Definition byte (x : Z) : Z := x mod 2 ^ 8.

(** [binary.BigEndian.PutUint64(buf[:], v)] on an 8-byte buffer. *)
Definition PutUint64 (v : Z) : list Z :=
  [ byte (Z.shiftr v 56); byte (Z.shiftr v 48); byte (Z.shiftr v 40);
    byte (Z.shiftr v 32); byte (Z.shiftr v 24); byte (Z.shiftr v 16);
    byte (Z.shiftr v 8); byte v ].

(** [[]byte(name)] *)
Definition bytes (name : string) : list Z :=
  map (fun c => Z.of_N (N_of_ascii c)) (list_ascii_of_string name).

Definition fixedArgumentsFunction_UUID (h : fixedArgumentsFunction) : ID :=
  let hf := New32a in
  let name := funcName (fn h) in
  let hf := Write hf (bytes name) in
  let buf := PutUint64 (uint64 (nIn h)) in
  let hf := Write hf buf in
  let buf := PutUint64 (uint64 (nOut h)) in
  let hf := Write hf buf in
  Sum32 hf.

(** [NewFixedHint(fn, nIn, nOut)], seen through the interface. *)
Definition NewFixedHint (fn : Function) (nIn nOut : Z) : AnnotatedFunction :=
  let h := {| fn := fn; nIn := nIn; nOut := nOut |} in
  {| UUID := fixedArgumentsFunction_UUID h;
     Call := fixedArgumentsFunction_Call h;
     TotalInputs := fixedArgumentsFunction_TotalInputs h;
     TotalOutputs := fixedArgumentsFunction_TotalOutputs h |}.

(** *** The registry

    The package-level map is threaded explicitly; the lock around it has
    no sequential effect. *)

Definition registered_twice : string := "function registered twice"%string.

Definition Register (hintFn : AnnotatedFunction)
    (registry : gmap Z AnnotatedFunction) : outcome (gmap Z AnnotatedFunction) :=
  let key := UUID hintFn in
  match registry !! key with
  | Some _ => Panic registered_twice
  | None => Ok (<[key := hintFn]> registry)
  end.

(** [GetAll()]: the registered functions, in the map's iteration order. *)
Definition GetAll (registry : gmap Z AnnotatedFunction) : list AnnotatedFunction :=
  (map_to_list registry).*2.

End hint.

(** ** Text output taken as given

    [fr.Element.String] (gnark-crypto) and [fmt.Sprintf] (Go's library) only
    produce text for the log evaluator. *)

Class Printing : Type := {
  Element_String : fr.Element -> string;
  Sprintf : string -> list string -> string
}.

(** ** The scratch pool of [big.Int]

    [bigIntPool] hands out integers that still hold whatever their last user
    left in them; a fresh one is zero.  It is modelled as the stack of the
    integers put back. *)

Definition bigIntPool : Type := list Z.

Definition Get (pool : bigIntPool) : Z * bigIntPool :=
  match pool with
  | [] => (0, [])
  | x :: pool' => (x, pool')
  end.

Definition Put (x : Z) (pool : bigIntPool) : bigIntPool := x :: pool.

(** [n] successive [Get]s: what the integers hold, and the pool left. *)
Fixpoint GetN (n : nat) (pool : bigIntPool) : list Z * bigIntPool :=
  match n with
  | O => ([], pool)
  | S n' => let '(x, pool) := Get pool in
            let '(xs, pool) := GetN n' pool in
            (x :: xs, pool)
  end.

(** [for i := 0; i < len(xs); i++ { bigIntPool.Put(xs[i]) }] *)
Definition PutAll (xs : list Z) (pool : bigIntPool) : bigIntPool :=
  fold_left (fun pool x => Put x pool) xs pool.

(** A callee cannot change the length of its caller's slice, only overwrite
    its elements: [writeBack old new] is the caller's view of a buffer that
    held [old] after a call that reports [new]. *)
Fixpoint writeBack (old new : list Z) : list Z :=
  match old, new with
  | [], _ => []
  | _ :: _, [] => old
  | _ :: old', n :: new' => n :: writeBack old' new'
  end.

(** ** Package [cs]: the solution state and the solver ([solution.go]) *)

Module cs.
Import compiled.

Record solution : Type := mkSolution {
  values : list fr.Element;
  coefficients : list fr.Element;
  solved : list bool;
  nbSolved : Z;
  mHintsFunctions : gmap Z hint.AnnotatedFunction
}.

(** The zero value [solution{}]. *)
Definition zeroSolution : solution :=
  {| values := []; coefficients := []; solved := []; nbSolved := 0;
     mHintsFunctions := ∅ |}.

Definition makeslice_out_of_range : string := "runtime error: makeslice: len out of range"%string.

(** The loop of [newSolution] over the hint functions. *)
Fixpoint newSolution_hints (hintFunctions : list hint.AnnotatedFunction)
    (m : gmap Z hint.AnnotatedFunction) : gmap Z hint.AnnotatedFunction + error :=
  match hintFunctions with
  | [] => inl m
  | h :: rest =>
      match m !! hint.UUID h with
      | Some _ => inr (ErrDuplicateHint (hint.UUID h))
      | None => newSolution_hints rest (<[hint.UUID h := h]> m)
      end
  end.

Definition newSolution (nbWires : Z) (hintFunctions : list hint.AnnotatedFunction)
    (coefficients : list fr.Element) : outcome (solution * option error) :=
  if nbWires <? 0 then Panic makeslice_out_of_range
  else
    match newSolution_hints hintFunctions ∅ with
    | inr e => Ok (zeroSolution, Some e)
    | inl m =>
        Ok ({| values := replicate (Z.to_nat nbWires) fr.zero;
               coefficients := coefficients;
               solved := replicate (Z.to_nat nbWires) false;
               nbSolved := 0;
               mHintsFunctions := m |}, None)
    end.

Definition solved_twice : string :=
  "solving the same wire twice should never happen."%string.

Definition set (s : solution) (id : Z) (value : fr.Element) : outcome solution :=
  let* b := index (solved s) id in
  if (b : bool) then Panic solved_twice
  else
    let* vs := store (values s) id value in
    let* sv := store (solved s) id true in
    Ok {| values := vs;
          coefficients := coefficients s;
          solved := sv;
          nbSolved := int_wrap (nbSolved s + 1);
          mHintsFunctions := mHintsFunctions s |}.

Definition isValid (s : solution) : bool := nbSolved s =? len (values s).

Definition unsolved_wire : string := "computing a term with an unsolved wire"%string.

Section WithConsts.
Context `{Consts}.

(** [computeTerm] computes coef*variable. *)
Definition computeTerm (s : solution) (t : Term) : outcome fr.Element :=
  let '(cID, vID, _) := Unpack t in
  let* unsolved := (if negb (cID =? 0)
                    then let* b := index (solved s) vID in Ok (negb b)
                    else Ok false) in
  if (unsolved : bool) then Panic unsolved_wire
  else if cID =? CoeffIdZero then Ok fr.zero
  else if cID =? CoeffIdOne then index (values s) vID
  else if cID =? CoeffIdTwo then
    let* v := index (values s) vID in Ok (fr.Double v)
  else if cID =? CoeffIdMinusOne then
    let* v := index (values s) vID in Ok (fr.Neg v)
  else
    let* c := index (coefficients s) cID in
    let* v := index (values s) vID in
    Ok (fr.Mul c v).

(** The inner loop of [solveWithHint] over the terms of one input: [acc] is
    [inputs[i]], [lambda] the scratch integer.  The boolean tells whether
    every wire met was solved. *)
Fixpoint evalInput (s : solution) (ts : list Term) (acc lambda : Z)
    : outcome (Z * Z * bool) :=
  match ts with
  | [] => Ok (acc, lambda, true)
  | t :: ts' =>
      let '(ciID, viID, visibility) := Unpack t in
      if Visibility_eqb visibility Virtual then
        let* c := index (coefficients s) ciID in
        let lambda := fr.ToBigIntRegular c in
        evalInput s ts' (acc + lambda) lambda
      else
        let* b := index (solved s) viID in
        if negb b then Ok (acc, lambda, false)
        else
          let* v := computeTerm s t in
          let lambda := fr.ToBigIntRegular v in
          evalInput s ts' (acc + lambda) lambda
  end.

(** The outer loop: the contents of [inputs] (zero where not reached),
    the scratch integer, and whether every wire met was solved. *)
Fixpoint evalInputs (s : solution) (ins : list Variable_) (lambda : Z)
    : outcome (list Z * Z * bool) :=
  match ins with
  | [] => Ok ([], lambda, true)
  | v :: ins' =>
      let* (acc, lambda, ok) := evalInput s (terms v) 0 lambda in
      if (ok : bool) then
        let* (rest, lambda, ok) := evalInputs s ins' lambda in
        Ok (acc :: rest, lambda, ok)
      else Ok (acc :: map (fun _ => 0) ins', lambda, false)
  end.

(** [for i := range outputs { v.SetBigInt(outputs[i]); s.set(h.Wires[i], v) }] *)
Fixpoint setOutputs (s : solution) (wires : list Z) (outputs : list Z) (i : Z)
    : outcome solution :=
  match outputs with
  | [] => Ok s
  | o :: outputs' =>
      let v := fr.SetBigInt o in
      let* w := index wires i in
      let* s := set s w v in
      setOutputs s wires outputs' (i + 1)
  end.

(** The second half of [solveWithHint], from the allocation of [outputs]
    to the final [return]: call the hint on the reduced inputs, with
    [lambda] as its first output buffer, set every output wire, release the
    buffers, return the hint's error. *)
Definition callHint (s : solution) (pool : bigIntPool) (f : hint.AnnotatedFunction)
    (h : Hint) (inputs : list Z) (lambda : Z)
    : outcome (solution * bigIntPool * option error) :=
  let nbOutputs := hint.TotalOutputs f (len inputs) in
  if nbOutputs <? 0 then Panic makeslice_out_of_range
  else if nbOutputs =? 0 then Panic index_out_of_range
  else
    let '(others, pool) := GetN (Z.to_nat nbOutputs - 1) pool in
    let outputs := lambda :: others in
    let q := fr.Modulus in
    let inputs := map (fun x => x mod q) inputs in
    let* (res, err) := hint.Call f ecc.BLS12_381 inputs outputs in
    let outputs := writeBack outputs res in
    let* s := setOutputs s (Wires h) outputs 0 in
    let pool := PutAll inputs pool in
    let pool := PutAll outputs pool in
    Ok (s, pool, err).

(** [solveWithHint] computes [solution.values[vID]] with the solver hint
    [h].  The state is the solution and the scratch pool. *)
Definition solveWithHint (s : solution) (pool : bigIntPool) (vID : Z) (h : Hint)
    : outcome (solution * bigIntPool * option error) :=
  let* b := index (solved s) vID in
  if (b : bool) then Ok (s, pool, None)
  else
    match mHintsFunctions s !! ID h with
    | None => Ok (s, pool, Some ErrMissingHint)
    | Some f =>
        let '(_, pool) := GetN (length (Inputs h)) pool in
        let '(lambda, pool) := Get pool in
        let* (inputs, lambda, ok) := evalInputs s (Inputs h) lambda in
        if negb ok then
          Ok (s, PutAll inputs (Put lambda pool), Some ErrWireNotInstantiated)
        else callHint s pool f h inputs lambda
    end.

(** *** The log evaluator *)

Definition unsolvedVariable : string := "<unsolved>"%string.

Context `{Printing}.

(** The local variables of [logValue] across its loop. *)
Record logState : Type := mkLogState {
  toResolve : list string;
  isEval : bool;
  eval : fr.Element;
  missingValue : bool
}.

Definition append (st : logState) (x : string) : logState :=
  {| toResolve := toResolve st ++ [x]; isEval := isEval st; eval := eval st;
     missingValue := missingValue st |}.

Definition setEval (st : logState) (e : fr.Element) : logState :=
  {| toResolve := toResolve st; isEval := isEval st; eval := e;
     missingValue := missingValue st |}.

(** One iteration of the loop of [logValue]. *)
Definition logStep (s : solution) (st : logState) (t : Term) : outcome logState :=
  if Term_eqb t TermDelimitor then
    if negb (isEval st) then
      Ok {| toResolve := toResolve st; isEval := true; eval := fr.zero;
            missingValue := false |}
    else
      let st := {| toResolve := toResolve st; isEval := false; eval := eval st;
                   missingValue := missingValue st |} in
      if missingValue st then Ok (append st unsolvedVariable)
      else Ok (append st (Element_String (eval st)))
  else
    let '(cID, vID, visibility) := Unpack t in
    if isEval st then
      if Visibility_eqb visibility Virtual then
        let* c := index (coefficients s) cID in
        Ok (setEval st (fr.Add (eval st) c))
      else
        let* b := index (solved s) vID in
        if negb b then
          Ok {| toResolve := toResolve st; isEval := isEval st; eval := eval st;
                missingValue := true |}
        else
          let* tv := computeTerm s t in
          Ok (setEval st (fr.Add (eval st) tv))
    else if Visibility_eqb visibility Virtual then
      if cID =? CoeffIdMinusOne then Ok (append st "-1"%string)
      else let* c := index (coefficients s) cID in Ok (append st (Element_String c))
    else
      let* st := (if negb ((cID =? CoeffIdMinusOne) || (cID =? CoeffIdOne))
                  then let* c := index (coefficients s) cID in
                       Ok (append st (Element_String c))
                  else Ok st) in
      let* b := index (solved s) vID in
      if negb b then Ok (append st unsolvedVariable)
      else let* v := index (values s) vID in Ok (append st (Element_String v)).

Fixpoint logLoop (s : solution) (st : logState) (ts : list Term) : outcome logState :=
  match ts with
  | [] => Ok st
  | t :: ts' => let* st := logStep s st t in logLoop s st ts'
  end.

Definition logValue (s : solution) (log : LogEntry) : outcome string :=
  let st := {| toResolve := []; isEval := false; eval := fr.zero;
               missingValue := false |} in
  let* st := logLoop s st (ToResolve log) in
  Ok (Sprintf (Format log) (toResolve st)).

End WithConsts.
End cs.

(** ** Invariants and reference definitions used by the statements *)

Module inv.
Import compiled cs.

(** The number of wires marked solved. *)
Fixpoint countTrue (l : list bool) : Z :=
  match l with
  | [] => 0
  | b :: l' => (if b then 1 else 0) + countTrue l'
  end.

Definition countSolved (s : solution) : Z := countTrue (solved s).

(** What [newSolution] establishes and [set] keeps: the two arrays are
    parallel, the counter counts the markers, and the length is a Go [int]. *)
Definition wellFormed (s : solution) : Prop :=
  length (values s) = length (solved s) /\
  nbSolved s = countSolved s /\
  len (values s) <= max_int.

(** The states a solve goes through: out of [newSolution], then through
    [set]s that return. *)
Inductive reachable : solution -> Prop :=
| reach_new nbWires hintFunctions coefficients s :
    nbWires <= max_int ->
    newSolution nbWires hintFunctions coefficients = Ok (s, None) ->
    reachable s
| reach_set s id value s' :
    reachable s ->
    set s id value = Ok s' ->
    reachable s'.

(** What Go's switch statement demands of the reserved identifiers: its
    case constants are pairwise distinct. *)
Definition reservedDistinct `{Consts} : Prop :=
  NoDup [CoeffIdZero; CoeffIdOne; CoeffIdTwo; CoeffIdMinusOne].

(** The reserved zero is the literal [0] that [computeTerm] tests before
    its switch. *)
Definition reservedZero `{Consts} : Prop := CoeffIdZero = 0.

Definition isReserved `{Consts} (cID : Z) : Prop :=
  cID = CoeffIdZero \/ cID = CoeffIdOne \/ cID = CoeffIdTwo \/ cID = CoeffIdMinusOne.

(** Modelled from the spec: the numeric values of the visibility tags are
    not part of the sources at hand; "canonical ordering is by visibility
    (descending: Public > Secret > Internal > Virtual)". *)
Definition visibilityRank (v : Visibility) : Z :=
  match v with Public => 3 | Secret => 2 | Internal => 1 | Virtual => 0 end.

(** [v.Less(i, j)], on the terms at the two positions. *)
Definition Less (a b : Term) : bool :=
  let '(_, iID, iVis) := Unpack a in
  let '(_, jID, jVis) := Unpack b in
  if Visibility_eqb iVis jVis then iID <? jID
  else visibilityRank jVis <? visibilityRank iVis.

(** [sort.IsSorted]: no term is [Less] than the one before it. *)
Fixpoint IsSorted (ts : list Term) : bool :=
  match ts with
  | a :: (b :: _) as rest => negb (Less b a) && IsSorted rest
  | _ => true
  end.

(** The scalar a hint input stands for, in the spec's words: the sum of
    the coefficient values of its [Virtual] terms and of [computeTerm] of
    its other terms. *)
Definition termValue `{Consts} (s : solution) (t : Term) : outcome Z :=
  if Visibility_eqb (visibility t) Virtual
  then index (coefficients s) (cID t)
  else computeTerm s t.

Fixpoint linearValue `{Consts} (s : solution) (ts : list Term) : outcome Z :=
  match ts with
  | [] => Ok 0
  | t :: ts' =>
      let* x := termValue s t in
      let* rest := linearValue s ts' in
      Ok (x + rest)
  end.

(** A term is resolved when it is a constant or its wire is solved. *)
Definition resolved (s : solution) (t : Term) : Prop :=
  visibility t = Virtual \/ index (solved s) (vID t) = Ok true.

(** The identifiers of a term index the coefficient table and the wires. *)
Definition termInRange (s : solution) (t : Term) : Prop :=
  0 <= cID t < len (coefficients s) /\ 0 <= vID t < len (solved s).

Definition inputsInRange (s : solution) (h : Hint) : Prop :=
  forall v t, v ∈ Inputs h -> t ∈ terms v -> termInRange s t.

(** How far a multiple of [prime32 ^ 8] lands from zero modulo [2 ^ 32]:
    eight steps of the hash separate the last byte of [nIn] from the last
    byte of [nOut]. *)
Definition spreadCheck (d : Z) : bool :=
  (d =? 0) ||
  ((256 <=? (d * hint.prime32 ^ 8) mod 2 ^ 32) &&
   ((d * hint.prime32 ^ 8) mod 2 ^ 32 <=? 2 ^ 32 - 256)).

End inv.

(** ** Concrete data for the examples *)

Module examples.
Import compiled cs.

(** A choice of the package constants: the reserved identifiers 0, 1, 2, 3
    and a delimiter that no term over valid identifiers equals. *)
Definition consts : Consts :=
  {| CoeffIdZero := 0; CoeffIdOne := 1; CoeffIdTwo := 2; CoeffIdMinusOne := 3;
     TermDelimitor := mkTerm (-1) (-1) Virtual |}.

(** The [nil] slice and the empty slice its [Clone] is. *)
Definition nilVariable : Variable_ := None.
Definition emptyVariable : Variable_ := Clone nilVariable.

(** [2*w1 + 5] and [w1 + w0], in canonical order. *)
Definition twoSecretPlusFive : Variable_ :=
  Some [mkTerm 2 1 Secret; mkTerm 4 0 Virtual].
Definition secretPlusPublic : Variable_ :=
  Some [mkTerm 1 0 Public; mkTerm 1 1 Secret].

(** A coefficient table that starts with the reserved constants 0, 1, 2, -1
    and goes on with 5 and 3. *)
Definition table : list fr.Element := [0; 1; 2; fr.minusOne; 5; 3].

(** Three wires, none solved. *)
Definition fresh : solution :=
  {| values := [0; 0; 0]; coefficients := table; solved := [false; false; false];
     nbSolved := 0; mHintsFunctions := ∅ |}.

(** Wire 0 (the constant one) and wire 1 (holding 8) solved, wire 2 not. *)
Definition partly : solution :=
  {| values := [1; 8; 0]; coefficients := table; solved := [true; true; false];
     nbSolved := 2; mHintsFunctions := ∅ |}.

(** A printer for the examples: decimal digits, and the format followed by
    the arguments. *)
Definition printing : Printing :=
  {| Element_String := fun x => pretty x;
     Sprintf := fun format args => String.concat " " (format :: args) |}.

(** The doubling hint of the [multihint] test circuit, as a named function:
    [res[0] = 2*inputs[0]; res[1] = 2*inputs[1]]. *)
Definition double : hint.Function :=
  {| hint.funcName := "main.double";
     hint.apply := fun _ inputs res =>
       match inputs, res with
       | a :: b :: _, _ :: _ :: rest => Ok (2 * a :: 2 * b :: rest, None)
       | _, _ => Panic index_out_of_range
       end |}.

(** A hint whose condition is undefined: it reports an error and leaves
    [res] as it found it. *)
Definition undefinedHint : hint.Function :=
  {| hint.funcName := "main.undefined";
     hint.apply := fun _ _ res => Ok (res, Some (ErrHint "undefined")) |}.

(** A function that must not be called. *)
Definition crashing : hint.Function :=
  {| hint.funcName := "main.crashing";
     hint.apply := fun _ _ _ => Panic "called" |}.

(** The local variables of [logValue] when its loop starts. *)
Definition logStart : logState :=
  {| toResolve := []; isEval := false; eval := fr.zero; missingValue := false |}.

(** The doubling hint with two inputs and two outputs, and the failing hint
    with one input and one output, as a solve is given them. *)
Definition doubleFixed : hint.AnnotatedFunction := hint.NewFixedHint double 2 2.
Definition undefinedFixed : hint.AnnotatedFunction := hint.NewFixedHint undefinedHint 1 1.

(** Five wires: the constant one, the inputs 5 and 7, and two wires that
    hints are to fill. *)
Definition solving : solution :=
  {| values := [1; 5; 7; 0; 0]; coefficients := table;
     solved := [true; true; true; false; false]; nbSolved := 3;
     mHintsFunctions :=
       <[hint.UUID doubleFixed := doubleFixed]>
         (<[hint.UUID undefinedFixed := undefinedFixed]> ∅) |}.

(** [(w3, w4) <- double(w1, w2)] *)
Definition doubleHint : Hint :=
  {| ID := hint.UUID doubleFixed;
     Inputs := [Some [mkTerm 1 1 Secret]; Some [mkTerm 1 2 Secret]];
     Wires := [3; 4] |}.

(** [w3 <- undefined(w1)] *)
Definition undefinedCall : Hint :=
  {| ID := hint.UUID undefinedFixed;
     Inputs := [Some [mkTerm 1 1 Secret]];
     Wires := [3] |}.

(** [w3 <- undefined(2*w4 + 5)], asked for before wire 4 is solved. *)
Definition earlyCall : Hint :=
  {| ID := hint.UUID undefinedFixed;
     Inputs := [Some [mkTerm 2 4 Internal; mkTerm 4 0 Virtual]];
     Wires := [3] |}.

End examples.

(** ** The rest of [compiled.Variable] *)

Module compiled_Variable.
Import compiled.

(** [errNoValue], the value [AssertIsSet] panics with. *)
Definition errNoValue : string := "can't determine API input value"%string.

(** [v.AssertIsSet()] *)
Definition AssertIsSet (v : Variable_) : outcome unit :=
  if Len v =? 0 then Panic errNoValue else Ok tt.

(** [v.Swap(i, j)]: [v[i], v[j] = v[j], v[i]].  Both elements are read,
    then [v[i]] is written, then [v[j]]; the slice is updated in place, so
    what comes back is the slice the receiver now is. *)
Definition Swap (v : Variable_) (i j : Z) : outcome Variable_ :=
  let* b := index (terms v) j in
  let* a := index (terms v) i in
  let* l := store (terms v) i b in
  let* l := store l j a in
  Ok (Some l).

(** [v.Less(i, j)].  The numeric values of the visibility tags are not
    part of the sources at hand: [rank] gives them. *)
Definition Less (rank : Visibility -> Z) (v : Variable_) (i j : Z) : outcome bool :=
  let* a := index (terms v) i in
  let '(_, iID, iVis) := Unpack a in
  let* b := index (terms v) j in
  let '(_, jID, jVis) := Unpack b in
  if Visibility_eqb iVis jVis then Ok (iID <? jID)
  else Ok (rank jVis <? rank iVis).

End compiled_Variable.

(** ** Writers ([io.Writer], [os.Stdout])

    A writer is known by its handle; a [nil] writer is [None].  What has
    been written to a writer is a list of strings, threaded where a function
    writes. *)

Module io.
Definition Writer : Type := Z.
End io.

Module os.
Definition Stdout : io.Writer := 1.
End os.

(** ** Package [backend]: proving schemes and prover options *)

Module backend.

(** [type ID uint16] *)
Definition ID : Type := Z.

Definition UNKNOWN : ID := 0.
Definition GROTH16 : ID := 1.
Definition PLONK : ID := 2.

Definition Implemented : list ID := [GROTH16; PLONK].

(** [id.String()] *)
Definition ID_String (id : ID) : string :=
  if id =? GROTH16 then "groth16"
  else if id =? PLONK then "plonk"
  else "unknown".

Record ProverOption : Type := mkProverOption {
  Force : bool;
  HintFunctions : list hint.AnnotatedFunction;
  LoggerOut : option io.Writer
}.

(** The zero value [ProverOption{}]. *)
Definition zeroProverOption : ProverOption :=
  {| Force := false; HintFunctions := []; LoggerOut := None |}.

(** A [func(opt *ProverOption) error]: what it leaves in [*opt], and the
    error it returns. *)
Definition Option : Type := ProverOption -> ProverOption * option error.

(** The loop of [NewProverOption] over its options. *)
Fixpoint applyOptions (opts : list Option) (opt : ProverOption)
    : ProverOption * option error :=
  match opts with
  | [] => (opt, None)
  | option :: opts' =>
      let '(opt, err) := option opt in
      match err with
      | Some e => (zeroProverOption, Some e)
      | None => applyOptions opts' opt
      end
  end.

(** [NewProverOption(opts...)]; [registry] is the package-level map of
    [hint] that [hint.GetAll] reads. *)
Definition NewProverOption (registry : gmap Z hint.AnnotatedFunction)
    (opts : list Option) : ProverOption * option error :=
  let opt := {| Force := false;
                HintFunctions := hint.GetAll registry;
                LoggerOut := Some os.Stdout |} in
  applyOptions opts opt.

Definition IgnoreSolverError : Option :=
  fun opt =>
    ({| Force := true; HintFunctions := HintFunctions opt;
        LoggerOut := LoggerOut opt |}, None).

Definition WithHints (hintFunctions : list hint.AnnotatedFunction) : Option :=
  fun opt =>
    ({| Force := Force opt;
        HintFunctions := HintFunctions opt ++ hintFunctions;
        LoggerOut := LoggerOut opt |}, None).

Definition WithOutput (w : option io.Writer) : Option :=
  fun opt =>
    ({| Force := Force opt; HintFunctions := HintFunctions opt;
        LoggerOut := w |}, None).

End backend.

(** ** [printLogs] *)

Module cs_logs.
Import compiled cs.

Section WithConsts.
Context `{Consts} `{Printing}.

(** The loop of [printLogs]; [written] is what the writer holds.  The
    result of [io.WriteString] is dropped by the source; the writer is taken
    to accept what it is given. *)
Fixpoint printLogs_loop (s : solution) (written : list string)
    (logs : list LogEntry) : outcome (list string) :=
  match logs with
  | [] => Ok written
  | log :: logs' =>
      let* logLine := logValue s log in
      printLogs_loop s (written ++ [logLine]) logs'
  end.

Definition printLogs (s : solution) (w : option io.Writer) (written : list string)
    (logs : list LogEntry) : outcome (list string) :=
  match w with
  | None => Ok written
  | Some _ => printLogs_loop s written logs
  end.

End WithConsts.
End cs_logs.

(** ** Further invariants and reference definitions *)

Module inv_more.
Import compiled cs inv.

(** The registries a program goes through: empty, then through
    [Register]s that return. *)
Inductive registered : gmap Z hint.AnnotatedFunction -> Prop :=
| registered_empty : registered ∅
| registered_add f registry registry' :
    registered registry ->
    hint.Register f registry = Ok registry' ->
    registered registry'.

(** The options the package [backend] provides. *)
Inductive builtin : Type :=
| BIgnoreSolverError
| BWithHints (hintFunctions : list hint.AnnotatedFunction)
| BWithOutput (w : option io.Writer).

Definition builtinOption (b : builtin) : backend.Option :=
  match b with
  | BIgnoreSolverError => backend.IgnoreSolverError
  | BWithHints hs => backend.WithHints hs
  | BWithOutput w => backend.WithOutput w
  end.

(** What a list of the package's options asks for. *)
Definition asksForce (bs : list builtin) : bool :=
  existsb (fun b => match b with BIgnoreSolverError => true | _ => false end) bs.

Definition askedHints (bs : list builtin) : list hint.AnnotatedFunction :=
  concat (map (fun b => match b with BWithHints hs => hs | _ => [] end) bs).

Definition askedOutput (bs : list builtin) (default : option io.Writer)
    : option io.Writer :=
  fold_left (fun w b => match b with BWithOutput w' => w' | _ => w end) bs default.

(** All values of the solution are canonical field elements. *)
Definition canonicalValues (s : solution) : Prop :=
  Forall fr.canonical (values s).

(** A wire term whose wire is not solved. *)
Definition unresolved (s : solution) (t : Term) : Prop :=
  visibility t <> Virtual /\ index (solved s) (vID t) = Ok false.

End inv_more.

(** ** More data for the examples *)

Module samples.
Import compiled cs inv inv_more.

(** A registry with the two hints of the examples. *)
Definition registry : gmap Z hint.AnnotatedFunction :=
  <[hint.UUID examples.undefinedFixed := examples.undefinedFixed]>
    (<[hint.UUID examples.doubleFixed := examples.doubleFixed]> ∅).

(** [w0 + 5*w1 + 3], in canonical order: the span of a log entry. *)
Definition span : list Term :=
  [mkTerm 1 0 Public; mkTerm 4 1 Secret; mkTerm 5 0 Virtual].

(** The same with the unsolved wire 2 in it. *)
Definition openSpan : list Term :=
  [mkTerm 1 0 Public; mkTerm 4 2 Internal; mkTerm 5 0 Virtual].

(** [(w3, w4) <- double(w1)]: one input for a function that declares two. *)
Definition oneInput : Hint :=
  {| ID := hint.UUID examples.doubleFixed;
     Inputs := [Some [mkTerm 1 1 Secret]];
     Wires := [3; 4] |}.

(** A hint whose function no one supplied. *)
Definition unknownHint : Hint :=
  {| ID := 42; Inputs := [Some [mkTerm 7 9 Secret]]; Wires := [3] |}.

(** [(w3, w1) <- double(w1, w2)]: the second output wire is already
    solved. *)
Definition overwriting : Hint :=
  {| ID := hint.UUID examples.doubleFixed;
     Inputs := [Some [mkTerm 1 1 Secret]; Some [mkTerm 1 2 Secret]];
     Wires := [3; 1] |}.

(** An option that refuses: it returns an error. *)
Definition refusing : backend.Option :=
  fun opt => (opt, Some (ErrHint "refused")).

(** [NewFixedHint(double, 887, 10164)] and [NewFixedHint(double, 10240, 5376)]:
    the doubling function under two signatures. *)
Definition doubleWide : hint.AnnotatedFunction :=
  hint.NewFixedHint examples.double 887 10164.
Definition doubleTall : hint.AnnotatedFunction :=
  hint.NewFixedHint examples.double 10240 5376.

End samples.

(** ** Properties *)

Import compiled cs inv.

(** *** Linear expressions *)

Lemma Visibility_eqb_eq (a b : Visibility) : Visibility_eqb a b = true <-> a = b.
Proof. destruct a, b; simpl; split; congruence. Qed.

Lemma Term_eqb_eq (a b : Term) : Term_eqb a b = true <-> a = b.
Proof.
  destruct a as [c1 v1 k1], b as [c2 v2 k2]; unfold Term_eqb; simpl.
  rewrite !andb_true_iff, !Z.eqb_eq, Visibility_eqb_eq.
  split.
  - intros [[-> ->] ->]; reflexivity.
  - intros [= -> -> ->]; auto.
Qed.

Lemma Equal_loop_eq (v o : list Term) :
  length v = length o -> (Equal_loop v o = true <-> v = o).
Proof.
  revert o; induction v as [|a v' IH]; intros [|b o'] Hlen; simpl in *;
    try discriminate; [split; reflexivity|].
  destruct (Term_eqb a b) eqn:E; simpl.
  - apply Term_eqb_eq in E; subst b.
    rewrite IH by congruence. split; [intros ->; reflexivity | intros [= ->]; reflexivity].
  - split; [discriminate|]. intros [= Hab _].
    apply Term_eqb_eq in Hab. congruence.
Qed.

(** Two sorted expressions, each equal to its own copy and not to the
    other. *)
Example Equal_sorted_example :
  IsSorted (terms examples.twoSecretPlusFive) = true /\
  IsSorted (terms examples.secretPlusPublic) = true /\
  Equal examples.secretPlusPublic (Clone examples.secretPlusPublic) = true /\
  Equal examples.secretPlusPublic examples.twoSecretPlusFive = false.
Proof. repeat split. Qed.

(** C9, as stated, fails: the [nil] expression and its own [Clone] are both
    canonically sorted, have the same length and the same term at every
    position (there is none), and [Equal] tells them apart. *)
Lemma Equal_nil_empty_differ :
  ~ (forall v o : Variable_,
       IsSorted (terms v) = true -> IsSorted (terms o) = true ->
       (Equal v o = true <-> terms v = terms o)).
Proof.
  intros Hclaim.
  destruct (Hclaim examples.nilVariable examples.emptyVariable eq_refl eq_refl) as [_ Hback].
  specialize (Hback eq_refl). vm_compute in Hback. discriminate.
Qed.

(** C9 (amended): [Equal] returns true exactly when both expressions are
    [nil] or both are not, and they hold the same (coefficient, wire,
    visibility) triple at every position, whether sorted or not. *)
Theorem Equal_iff_same_terms_same_nilness (v o : Variable_) :
  Equal v o = true <-> (isNil v = isNil o /\ terms v = terms o).
Proof.
  unfold Equal, Len, len.
  destruct (Z.of_nat (length (terms v)) =? Z.of_nat (length (terms o))) eqn:Hlen; simpl.
  - apply Z.eqb_eq in Hlen. apply Nat2Z.inj in Hlen.
    destruct (Bool.eqb (isNil v) (isNil o)) eqn:Hnil; simpl.
    + apply Bool.eqb_prop in Hnil. rewrite (Equal_loop_eq _ _ Hlen). tauto.
    + split; [discriminate|]. intros [Heq _]. rewrite Heq in Hnil.
      rewrite Bool.eqb_reflx in Hnil. discriminate.
  - split; [discriminate|]. intros [_ Heq]. rewrite Heq in Hlen.
    rewrite Z.eqb_refl in Hlen. discriminate.
Qed.

(** *** Fixed-arity hint functions *)

(** C8: a function built by [NewFixedHint] answers a wrong number of inputs,
    or a result buffer of the wrong length, with the arity error that names
    both lengths, leaves the buffer as it was, and does so whatever the
    wrapped function is (one that would panic is not reached); with both
    lengths right, the call is the wrapped function's. *)
Theorem Call_checks_arity_before_running (fn : hint.Function) (nIn nOut : Z)
    (curveID : ecc.ID) (inputs res : list Z) :
  let h := hint.NewFixedHint fn nIn nOut in
  (len inputs <> nIn ->
     hint.Call h curveID inputs res
     = Ok (res, Some (ErrInputArity (len inputs) nIn))) /\
  (len inputs = nIn -> len res <> nOut ->
     hint.Call h curveID inputs res
     = Ok (res, Some (ErrResultArity (len res) nOut))) /\
  (len inputs <> nIn \/ len res <> nOut ->
     forall fn' : hint.Function,
       hint.Call (hint.NewFixedHint fn' nIn nOut) curveID inputs res
       = hint.Call h curveID inputs res) /\
  (len inputs = nIn -> len res = nOut ->
     hint.Call h curveID inputs res = hint.apply fn curveID inputs res).
Proof.
  simpl. unfold hint.fixedArgumentsFunction_Call; simpl.
  destruct (Z.eqb_spec (len inputs) nIn) as [Hi|Hi];
    destruct (Z.eqb_spec (len res) nOut) as [Ho|Ho]; simpl;
    repeat split; intros; try congruence; try tauto.
Qed.

(** The doubling hint declared with two inputs and given one never runs. *)
Example Call_arity_mismatch_example :
  hint.Call (hint.NewFixedHint examples.crashing 2 1) ecc.BLS12_381 [8] [0]
  = Ok ([0], Some (ErrInputArity 1 2)).
Proof. reflexivity. Qed.

(** *** The identifier of a fixed-arity hint: FNV-1a over name and arities *)

Lemma fnv_step_range (h c : Z) : 0 <= hint.fnv_step h c < 2 ^ 32.
Proof. unfold hint.fnv_step. apply Z.mod_pos_bound. lia. Qed.

Lemma Write_range (h : Z) (data : list Z) :
  0 <= h < 2 ^ 32 -> 0 <= hint.Write h data < 2 ^ 32.
Proof.
  unfold hint.Write. revert h. induction data as [|c data IH]; intros h Hh; simpl.
  - exact Hh.
  - apply IH, fnv_step_range.
Qed.

Lemma Write_app (h : Z) (a b : list Z) :
  hint.Write h (a ++ b) = hint.Write (hint.Write h a) b.
Proof. unfold hint.Write. apply fold_left_app. Qed.

Lemma fnv_step_zero (h : Z) : hint.fnv_step h 0 = (h * hint.prime32) mod 2 ^ 32.
Proof. unfold hint.fnv_step. rewrite Z.lxor_0_r. reflexivity. Qed.

Lemma Write_zeros (n : nat) (h : Z) :
  hint.Write h (repeat 0 (S n)) = (h * hint.prime32 ^ Z.of_nat (S n)) mod 2 ^ 32.
Proof.
  revert h. induction n as [|n IH]; intros h.
  - unfold hint.Write; simpl fold_left. rewrite fnv_step_zero.
    change (Z.of_nat 1) with 1. rewrite Z.pow_1_r. reflexivity.
  - change (repeat 0 (S (S n))) with (0 :: repeat 0 (S n)).
    change (hint.Write h (0 :: repeat 0 (S n)))
      with (hint.Write (hint.fnv_step h 0) (repeat 0 (S n))).
    rewrite IH, fnv_step_zero, Z.mul_mod_idemp_l by lia.
    f_equal. rewrite (Nat2Z.inj_succ (S n)), Z.pow_succ_r by lia. ring.
Qed.

Lemma PutUint64_small (a : Z) :
  0 <= a < 256 -> hint.PutUint64 (hint.uint64 a) = [0; 0; 0; 0; 0; 0; 0; a].
Proof.
  intros Ha. unfold hint.PutUint64, hint.uint64, hint.byte.
  rewrite (Z.mod_small a (2 ^ 64)) by lia.
  rewrite !Z.shiftr_div_pow2 by lia.
  rewrite !(Z.div_small a) by lia.
  rewrite (Z.mod_small a) by lia. reflexivity.
Qed.

Lemma mul_prime32_cancel (A B : Z) :
  0 <= A < 2 ^ 32 -> 0 <= B < 2 ^ 32 ->
  (A * hint.prime32) mod 2 ^ 32 = (B * hint.prime32) mod 2 ^ 32 -> A = B.
Proof.
  intros HA HB Heq.
  assert (Hdiv : (2 ^ 32 | hint.prime32 * (A - B))).
  { apply Z.mod_divide; [lia|].
    replace (hint.prime32 * (A - B)) with (A * hint.prime32 - B * hint.prime32) by ring.
    rewrite Zminus_mod, Heq, Z.sub_diag. reflexivity. }
  apply Z.gauss in Hdiv.
  - destruct Hdiv as [k Hk]. assert (k = 0) by lia. lia.
  - vm_compute. reflexivity.
Qed.

Lemma lxor_byte_high (u b : Z) :
  0 <= b < 256 -> Z.shiftr (Z.lxor u b) 8 = Z.shiftr u 8.
Proof.
  intros Hb. rewrite Z.shiftr_lxor.
  rewrite (Z.shiftr_div_pow2 b) by lia.
  rewrite (Z.div_small b) by lia. apply Z.lxor_0_r.
Qed.

Lemma same_high_close (u v : Z) :
  Z.shiftr u 8 = Z.shiftr v 8 -> -256 < u - v < 256.
Proof.
  rewrite !Z.shiftr_div_pow2 by lia. intros H.
  pose proof (Z.div_mod u (2 ^ 8) ltac:(lia)).
  pose proof (Z.div_mod v (2 ^ 8) ltac:(lia)).
  pose proof (Z.mod_pos_bound u (2 ^ 8) ltac:(lia)).
  pose proof (Z.mod_pos_bound v (2 ^ 8) ltac:(lia)).
  lia.
Qed.

Lemma spreadCheck_all (d : Z) : -256 < d < 256 -> spreadCheck d = true.
Proof.
  intros Hd.
  assert (Hall : forallb spreadCheck (seqZ (-255) 511) = true) by (vm_compute; reflexivity).
  rewrite forallb_forall in Hall. apply Hall.
  apply list_elem_of_In, elem_of_seqZ. lia.
Qed.

Lemma lxor_range (u b : Z) :
  0 <= u < 2 ^ 32 -> 0 <= b < 2 ^ 32 -> 0 <= Z.lxor u b < 2 ^ 32.
Proof.
  intros Hu Hb. split; [apply Z.lxor_nonneg; lia|].
  destruct (Z.eq_dec (Z.lxor u b) 0) as [->|Hnz]; [lia|].
  assert (0 <= Z.lxor u b) by (apply Z.lxor_nonneg; lia).
  apply Z.log2_lt_pow2; [lia|].
  eapply Z.le_lt_trans; [apply Z.log2_lxor; lia|].
  apply Z.max_lub_lt.
  - destruct (Z.eq_dec u 0) as [->|]; [simpl; lia|]. apply Z.log2_lt_pow2; lia.
  - destruct (Z.eq_dec b 0) as [->|]; [simpl; lia|]. apply Z.log2_lt_pow2; lia.
Qed.

Lemma lxor_cancel_l (x a b : Z) : Z.lxor x a = Z.lxor x b -> a = b.
Proof.
  intros H. apply (f_equal (Z.lxor x)) in H.
  rewrite <- !Z.lxor_assoc, Z.lxor_nilpotent, !Z.lxor_0_l in H. exact H.
Qed.

(** The identifier's last sixteen bytes, when both arities fit a byte. *)
Lemma Write_small_arity (h a : Z) :
  0 <= a < 256 ->
  hint.Write h (hint.PutUint64 (hint.uint64 a))
  = (Z.lxor ((h * hint.prime32 ^ 7) mod 2 ^ 32) a * hint.prime32) mod 2 ^ 32.
Proof.
  intros Ha. rewrite PutUint64_small by exact Ha.
  change [0; 0; 0; 0; 0; 0; 0; a] with (repeat 0 7 ++ [a]).
  rewrite Write_app, Write_zeros. reflexivity.
Qed.

Lemma small_arities_spread (h a a' b b' : Z) :
  0 <= a < 256 -> 0 <= a' < 256 -> 0 <= b < 256 -> 0 <= b' < 256 ->
  hint.Write (hint.Write h (hint.PutUint64 (hint.uint64 a))) (hint.PutUint64 (hint.uint64 b))
  = hint.Write (hint.Write h (hint.PutUint64 (hint.uint64 a'))) (hint.PutUint64 (hint.uint64 b')) ->
  a = a' /\ b = b'.
Proof.
  intros Ha Ha' Hb Hb'.
  rewrite !Write_small_arity by assumption.
  set (x := (h * hint.prime32 ^ 7) mod 2 ^ 32).
  assert (Hx : 0 <= x < 2 ^ 32) by (apply Z.mod_pos_bound; lia).
  rewrite !Z.mul_mod_idemp_l by lia.
  replace (Z.lxor x a * hint.prime32 * hint.prime32 ^ 7)
    with (Z.lxor x a * hint.prime32 ^ 8) by ring.
  replace (Z.lxor x a' * hint.prime32 * hint.prime32 ^ 7)
    with (Z.lxor x a' * hint.prime32 ^ 8) by ring.
  set (u := (Z.lxor x a * hint.prime32 ^ 8) mod 2 ^ 32).
  set (u' := (Z.lxor x a' * hint.prime32 ^ 8) mod 2 ^ 32).
  assert (Hu : 0 <= u < 2 ^ 32) by (apply Z.mod_pos_bound; lia).
  assert (Hu' : 0 <= u' < 2 ^ 32) by (apply Z.mod_pos_bound; lia).
  intros Heq.
  apply mul_prime32_cancel in Heq; [|apply lxor_range; lia|apply lxor_range; lia].
  assert (Hhigh : Z.shiftr u 8 = Z.shiftr u' 8).
  { rewrite <- (lxor_byte_high u b), <- (lxor_byte_high u' b') by assumption.
    rewrite Heq. reflexivity. }
  apply same_high_close in Hhigh.
  assert (Hd : -256 < Z.lxor x a - Z.lxor x a' < 256).
  { apply same_high_close. rewrite !lxor_byte_high by assumption. reflexivity. }
  assert (Hmod : (u - u') mod 2 ^ 32
                 = ((Z.lxor x a - Z.lxor x a') * hint.prime32 ^ 8) mod 2 ^ 32).
  { unfold u, u'. rewrite <- Zminus_mod. f_equal. ring. }
  pose proof (spreadCheck_all _ Hd) as Hchk. unfold spreadCheck in Hchk.
  apply orb_true_iff in Hchk. destruct Hchk as [Hz|Hfar].
  - apply Z.eqb_eq in Hz.
    assert (a = a') by (apply (lxor_cancel_l x); lia). subst a'.
    split; [reflexivity|]. apply (lxor_cancel_l u). exact Heq.
  - exfalso. apply andb_true_iff in Hfar. destruct Hfar as [Hlo Hhi].
    apply Z.leb_le in Hlo, Hhi. rewrite <- Hmod in Hlo, Hhi.
    destruct (Z_lt_le_dec (u - u') 0) as [Hneg|Hpos].
    + rewrite <- (Z_mod_plus_full (u - u') 1 (2 ^ 32)) in Hhi.
      rewrite Z.mod_small in Hhi by lia. lia.
    + rewrite Z.mod_small in Hlo by lia. lia.
Qed.

Lemma UUID_NewFixedHint (fn : hint.Function) (nIn nOut : Z) :
  hint.UUID (hint.NewFixedHint fn nIn nOut)
  = hint.Write (hint.Write (hint.Write hint.New32a (hint.bytes (hint.funcName fn)))
                  (hint.PutUint64 (hint.uint64 nIn)))
      (hint.PutUint64 (hint.uint64 nOut)).
Proof. reflexivity. Qed.

Lemma UUID_small_arities_differ (fn : hint.Function) (nIn nOut nIn' nOut' : Z) :
  0 <= nIn < 256 -> 0 <= nOut < 256 -> 0 <= nIn' < 256 -> 0 <= nOut' < 256 ->
  (nIn, nOut) <> (nIn', nOut') ->
  hint.UUID (hint.NewFixedHint fn nIn nOut)
  <> hint.UUID (hint.NewFixedHint fn nIn' nOut').
Proof.
  intros H1 H2 H3 H4 Hne Heq.
  rewrite !UUID_NewFixedHint in Heq.
  apply small_arities_spread in Heq; try assumption.
  destruct Heq as [Ha Hb]. apply Hne. congruence.
Qed.

(** *** The registry *)

Lemma Register_present (f : hint.AnnotatedFunction) (reg : gmap Z hint.AnnotatedFunction) :
  is_Some (reg !! hint.UUID f) -> hint.Register f reg = Panic hint.registered_twice.
Proof. intros [g Hg]. unfold hint.Register. rewrite Hg. reflexivity. Qed.

Lemma Register_absent (f : hint.AnnotatedFunction) (reg : gmap Z hint.AnnotatedFunction) :
  reg !! hint.UUID f = None -> hint.Register f reg = Ok (<[hint.UUID f := f]> reg).
Proof. intros Hf. unfold hint.Register. rewrite Hf. reflexivity. Qed.

Lemma Register_two_distinct (f g : hint.AnnotatedFunction)
    (reg : gmap Z hint.AnnotatedFunction) :
  hint.UUID f <> hint.UUID g ->
  reg !! hint.UUID f = None -> reg !! hint.UUID g = None ->
  exists reg1 reg2,
    hint.Register f reg = Ok reg1 /\ hint.Register g reg1 = Ok reg2 /\
    reg2 !! hint.UUID f = Some f /\ reg2 !! hint.UUID g = Some g.
Proof.
  intros Hne Hf Hg.
  exists (<[hint.UUID f := f]> reg), (<[hint.UUID g := g]> (<[hint.UUID f := f]> reg)).
  split; [apply Register_absent; exact Hf|].
  split; [apply Register_absent; rewrite lookup_insert_ne by exact Hne; exact Hg|].
  split.
  - rewrite lookup_insert_ne by congruence. apply lookup_insert_eq.
  - apply lookup_insert_eq.
Qed.

(** Not every two signatures of one function are told apart: the 32-bit
    identifier of the doubling function under (887, 10164) and under
    (10240, 5376) is the same number, so no rule that gives every two
    different arity pairs two identifiers and two registrations holds of
    [UUID] and [Register]. *)
Lemma two_arities_one_identifier :
  ~ (forall (fn : hint.Function) (nIn nOut nIn' nOut' : Z)
            (reg : gmap Z hint.AnnotatedFunction),
       let f := hint.NewFixedHint fn nIn nOut in
       let g := hint.NewFixedHint fn nIn' nOut' in
       (nIn, nOut) <> (nIn', nOut') ->
       reg !! hint.UUID f = None -> reg !! hint.UUID g = None ->
       hint.UUID f <> hint.UUID g /\
       exists reg1 reg2,
         hint.Register f reg = Ok reg1 /\ hint.Register g reg1 = Ok reg2 /\
         reg2 !! hint.UUID f = Some f /\ reg2 !! hint.UUID g = Some g).
Proof.
  intros Hclaim.
  destruct (Hclaim examples.double 887 10164 10240 5376 ∅) as [Hne _].
  - intros [= ? ?]; lia.
  - apply lookup_empty.
  - apply lookup_empty.
  - apply Hne. vm_compute. reflexivity.
Qed.

Lemma UUID_doubleWide : hint.UUID samples.doubleWide = 1674045418.
Proof. vm_compute. reflexivity. Qed.

Lemma UUID_doubleTall : hint.UUID samples.doubleTall = 1674045418.
Proof. vm_compute. reflexivity. Qed.

(** C5: the code run on the function [main.double] wrapped by
    [NewFixedHint] under the arities (887, 10164) and (10240, 5376).  The
    two wrappers declare different numbers of inputs and of outputs, and
    [UUID] gives both the identifier 1674045418.  Registered one after
    the other in an empty registry, whichever comes first is stored and the
    other makes [Register] panic with "registered twice"; the identifier
    of the refused wrapper then resolves to the stored one, and [GetAll]
    returns the stored one alone. *)
Theorem Register_same_function_two_arities_panics :
  hint.TotalInputs samples.doubleWide = 887 /\
  hint.TotalOutputs samples.doubleWide 887 = 10164 /\
  hint.TotalInputs samples.doubleTall = 10240 /\
  hint.TotalOutputs samples.doubleTall 10240 = 5376 /\
  hint.UUID samples.doubleWide = 1674045418 /\
  hint.UUID samples.doubleTall = 1674045418 /\
  (exists reg,
     hint.Register samples.doubleWide ∅ = Ok reg /\
     hint.Register samples.doubleTall reg = Panic hint.registered_twice /\
     reg !! hint.UUID samples.doubleTall = Some samples.doubleWide /\
     hint.GetAll reg = [samples.doubleWide]) /\
  (exists reg,
     hint.Register samples.doubleTall ∅ = Ok reg /\
     hint.Register samples.doubleWide reg = Panic hint.registered_twice /\
     reg !! hint.UUID samples.doubleWide = Some samples.doubleTall /\
     hint.GetAll reg = [samples.doubleTall]).
Proof.
  pose proof UUID_doubleWide as Hw. pose proof UUID_doubleTall as Ht.
  do 4 (split; [reflexivity|]).
  split; [exact Hw|]. split; [exact Ht|].
  split.
  - exists (<[hint.UUID samples.doubleWide := samples.doubleWide]> ∅).
    split; [apply Register_absent, lookup_empty|].
    split; [apply Register_present; rewrite Ht, <- Hw, lookup_insert_eq; eauto|].
    split; [rewrite Ht, <- Hw; apply lookup_insert_eq|].
    unfold hint.GetAll. rewrite insert_empty, map_to_list_singleton. reflexivity.
  - exists (<[hint.UUID samples.doubleTall := samples.doubleTall]> ∅).
    split; [apply Register_absent, lookup_empty|].
    split; [apply Register_present; rewrite Hw, <- Ht, lookup_insert_eq; eauto|].
    split; [rewrite Hw, <- Ht; apply lookup_insert_eq|].
    unfold hint.GetAll. rewrite insert_empty, map_to_list_singleton. reflexivity.
Qed.

(** X22: what [Register] and the identifiers of [NewFixedHint] do
    guarantee.  A registration under an identifier already present
    panics; the identifier of a fixed-arity wrapper is determined by the
    wrapped function's name and the two arities; two different arity pairs
    whose four numbers are all below 256 give different identifiers; and
    whenever two identifiers differ, both registrations succeed and each
    function is found under its own identifier. *)
Theorem registry_and_fixed_hint_identifiers :
  (forall (f : hint.AnnotatedFunction) (reg : gmap Z hint.AnnotatedFunction),
     is_Some (reg !! hint.UUID f) ->
     hint.Register f reg = Panic hint.registered_twice) /\
  (forall (fn fn' : hint.Function) (nIn nOut : Z),
     hint.funcName fn = hint.funcName fn' ->
     hint.UUID (hint.NewFixedHint fn nIn nOut)
     = hint.UUID (hint.NewFixedHint fn' nIn nOut)) /\
  (forall (fn : hint.Function) (nIn nOut nIn' nOut' : Z),
     0 <= nIn < 256 -> 0 <= nOut < 256 -> 0 <= nIn' < 256 -> 0 <= nOut' < 256 ->
     (nIn, nOut) <> (nIn', nOut') ->
     hint.UUID (hint.NewFixedHint fn nIn nOut)
     <> hint.UUID (hint.NewFixedHint fn nIn' nOut')) /\
  (forall (f g : hint.AnnotatedFunction) (reg : gmap Z hint.AnnotatedFunction),
     hint.UUID f <> hint.UUID g ->
     reg !! hint.UUID f = None -> reg !! hint.UUID g = None ->
     exists reg1 reg2,
       hint.Register f reg = Ok reg1 /\ hint.Register g reg1 = Ok reg2 /\
       reg2 !! hint.UUID f = Some f /\ reg2 !! hint.UUID g = Some g).
Proof.
  split; [exact Register_present|].
  split.
  { intros fn fn' nIn nOut Hname.
    rewrite !UUID_NewFixedHint, Hname. reflexivity. }
  split; [exact UUID_small_arities_differ|exact Register_two_distinct].
Qed.

(** The doubling hint under the arities (2, 2) and (2, 1): two entries. *)
Example Register_double_twice :
  let f := hint.NewFixedHint examples.double 2 2 in
  let g := hint.NewFixedHint examples.double 2 1 in
  exists reg,
    bind (hint.Register f ∅) (hint.Register g) = Ok reg /\
    reg !! hint.UUID f = Some f /\ reg !! hint.UUID g = Some g.
Proof.
  intros f g.
  destruct (Register_two_distinct f g ∅) as (reg1 & reg2 & H1 & H2 & Hf & Hg).
  - apply UUID_small_arities_differ; try lia. intros [= ?]; lia.
  - apply lookup_empty.
  - apply lookup_empty.
  - exists reg2. rewrite H1. unfold bind. auto.
Qed.

(** *** Slices *)

Lemma index_Ok {A : Type} (l : list A) (i : Z) (a : A) :
  index l i = Ok a <-> 0 <= i /\ l !! Z.to_nat i = Some a.
Proof.
  unfold index. destruct (Z.ltb_spec i 0) as [Hneg|Hpos].
  - split; [discriminate|]. intros [? _]; lia.
  - destruct (l !! Z.to_nat i) as [b|]; split.
    + intros [= ->]. auto.
    + intros [_ [= ->]]. reflexivity.
    + discriminate.
    + intros [_ ?]; discriminate.
Qed.

Lemma index_Ok_lt {A : Type} (l : list A) (i : Z) (a : A) :
  index l i = Ok a -> 0 <= i < len l.
Proof.
  intros H. apply index_Ok in H. destruct H as [Hi Hl].
  apply lookup_lt_Some in Hl. unfold len. lia.
Qed.

Lemma index_in_range {A : Type} (l : list A) (i : Z) :
  0 <= i < len l -> exists a, index l i = Ok a.
Proof.
  intros Hi. unfold len in Hi.
  destruct (lookup_lt_is_Some_2 l (Z.to_nat i)) as [a Ha]; [lia|].
  exists a. apply index_Ok. split; [lia|exact Ha].
Qed.

Lemma index_panics {A : Type} (l : list A) (i : Z) (msg : string) :
  index l i = Panic msg -> msg = index_out_of_range.
Proof.
  unfold index. destruct (i <? 0); [congruence|].
  destruct (l !! Z.to_nat i); [discriminate|congruence].
Qed.

Lemma store_in_range {A : Type} (l : list A) (i : Z) (a : A) :
  0 <= i < len l -> store l i a = Ok (<[Z.to_nat i := a]> l).
Proof.
  intros Hi. unfold store.
  destruct (Z.ltb_spec i 0); [lia|].
  destruct (Z.ltb_spec i (len l)); [reflexivity|lia].
Qed.

Lemma index_insert_same {A : Type} (l : list A) (i : Z) (a : A) :
  0 <= i < len l -> index (<[Z.to_nat i := a]> l) i = Ok a.
Proof.
  intros Hi. apply index_Ok. split; [lia|].
  apply list_lookup_insert_eq. unfold len in Hi. lia.
Qed.

Lemma index_insert_other {A : Type} (l : list A) (i j : Z) (a : A) :
  0 <= i -> j <> i -> index (<[Z.to_nat i := a]> l) j = index l j.
Proof.
  intros Hi Hne. unfold index. destruct (Z.ltb_spec j 0); [reflexivity|].
  rewrite list_lookup_insert_ne by lia. reflexivity.
Qed.

(** *** The solved counter *)

Lemma countTrue_bounds (l : list bool) : 0 <= countTrue l <= len l.
Proof.
  unfold len. induction l as [|b l IH]; simpl countTrue; simpl length.
  - lia.
  - destruct b; lia.
Qed.

Lemma countTrue_unsolved_lt (l : list bool) (n : nat) :
  l !! n = Some false -> countTrue l < len l.
Proof.
  unfold len. revert n. induction l as [|b l IH]; intros n Hn; [discriminate|].
  simpl countTrue; simpl length. destruct n as [|n]; simpl in Hn.
  - injection Hn as ->. pose proof (countTrue_bounds l). unfold len in *. lia.
  - specialize (IH n Hn). destruct b; lia.
Qed.

Lemma countTrue_insert (l : list bool) (n : nat) :
  l !! n = Some false -> countTrue (<[n := true]> l) = countTrue l + 1.
Proof.
  revert n. induction l as [|b l IH]; intros n Hn; [discriminate|].
  destruct n as [|n]; simpl in Hn.
  - injection Hn as ->. simpl. lia.
  - simpl. rewrite (IH n Hn). lia.
Qed.

Lemma countTrue_replicate_false (n : nat) : countTrue (replicate n false) = 0.
Proof. induction n as [|n IH]; simpl; [reflexivity|]. rewrite IH. reflexivity. Qed.

Lemma countTrue_full (l : list bool) :
  countTrue l = len l <-> Forall (fun b => b = true) l.
Proof.
  unfold len. induction l as [|b l IH]; simpl countTrue; simpl length.
  - split; [constructor|reflexivity].
  - pose proof (countTrue_bounds l) as Hb. unfold len in Hb.
    rewrite Forall_cons. destruct b.
    + rewrite <- IH. split; [intros; split; [reflexivity|lia]|intros [_ ?]; lia].
    + split; [lia|intros [? _]; discriminate].
Qed.

Lemma int_wrap_small (z : Z) : - 2 ^ 63 <= z <= max_int -> int_wrap z = z.
Proof.
  unfold int_wrap, max_int. intros Hz.
  rewrite Z.mod_small by lia. lia.
Qed.

(** *** [set] *)

Lemma set_solved (s : solution) (id : Z) (value : fr.Element) :
  index (solved s) id = Ok true -> set s id value = Panic solved_twice.
Proof. intros H. unfold set. rewrite H. reflexivity. Qed.

Lemma set_unsolved (s : solution) (id : Z) (value : fr.Element) :
  wellFormed s ->
  index (solved s) id = Ok false ->
  set s id value
  = Ok {| values := <[Z.to_nat id := value]> (values s);
          coefficients := coefficients s;
          solved := <[Z.to_nat id := true]> (solved s);
          nbSolved := nbSolved s + 1;
          mHintsFunctions := mHintsFunctions s |}.
Proof.
  intros (Hlen & Hcount & Hmax) Hid.
  pose proof (index_Ok_lt _ _ _ Hid) as Hrange.
  apply index_Ok in Hid as Hlook. destruct Hlook as [_ Hlook].
  pose proof (countTrue_unsolved_lt _ _ Hlook) as Hlt.
  pose proof (countTrue_bounds (solved s)) as Hb.
  unfold set. rewrite Hid. simpl.
  assert (Hlen' : len (values s) = len (solved s)) by (unfold len; lia).
  rewrite store_in_range by lia. simpl.
  rewrite store_in_range by lia. simpl.
  rewrite int_wrap_small; [reflexivity|].
  unfold countSolved in Hcount. unfold max_int in *. lia.
Qed.

Lemma set_wellFormed (s s' : solution) (id : Z) (value : fr.Element) :
  wellFormed s -> set s id value = Ok s' -> wellFormed s'.
Proof.
  intros Hwf Hset.
  destruct (index (solved s) id) as [[|]|msg] eqn:Hid.
  - rewrite set_solved in Hset by exact Hid. discriminate.
  - rewrite set_unsolved in Hset by assumption. injection Hset as <-.
    destruct Hwf as (Hlen & Hcount & Hmax).
    apply index_Ok in Hid. destruct Hid as [_ Hlook].
    unfold wellFormed, countSolved, len in *; simpl.
    rewrite !length_insert. rewrite countTrue_insert by exact Hlook.
    repeat split; lia.
  - unfold set in Hset. rewrite Hid in Hset. discriminate.
Qed.

Lemma newSolution_wellFormed nbWires hintFunctions coefficients s :
  nbWires <= max_int ->
  newSolution nbWires hintFunctions coefficients = Ok (s, None) ->
  wellFormed s.
Proof.
  intros Hmax. unfold newSolution.
  destruct (Z.ltb_spec nbWires 0); [discriminate|].
  destruct (newSolution_hints hintFunctions ∅); [|discriminate].
  intros [= <-]. unfold wellFormed, countSolved, len; simpl.
  rewrite !length_replicate, countTrue_replicate_false. lia.
Qed.

Lemma reachable_wellFormed (s : solution) : reachable s -> wellFormed s.
Proof.
  induction 1 as [nbWires hs cs s Hmax Hnew | s id value s' _ IH Hset].
  - eapply newSolution_wellFormed; eassumption.
  - eapply set_wellFormed; eassumption.
Qed.

(** C4: in every state of a solve the counter equals the number of wires
    marked solved, and [isValid] holds exactly when the counter equals the
    number of wires (that is, when every wire is marked); [set] on a solved
    wire panics; [set] on an unsolved wire stores the value, marks the wire,
    adds one to the counter and leaves every other wire as it was. *)
Theorem set_solves_each_wire_once (s : solution) (id : Z) (value : fr.Element) :
  reachable s ->
  (nbSolved s = countSolved s /\
   (isValid s = true <-> nbSolved s = len (values s)) /\
   (isValid s = true <-> Forall (fun b => b = true) (solved s))) /\
  (index (solved s) id = Ok true -> set s id value = Panic solved_twice) /\
  (index (solved s) id = Ok false ->
     exists s', set s id value = Ok s' /\ reachable s' /\
       index (values s') id = Ok value /\
       index (solved s') id = Ok true /\
       nbSolved s' = nbSolved s + 1 /\
       forall w, w <> id ->
         index (values s') w = index (values s) w /\
         index (solved s') w = index (solved s) w).
Proof.
  intros Hreach. pose proof (reachable_wellFormed s Hreach) as Hwf.
  destruct Hwf as (Hlen & Hcount & Hmax).
  split; [|split].
  - split; [exact Hcount|]. unfold isValid. rewrite Z.eqb_eq.
    split; [tauto|]. rewrite <- countTrue_full.
    unfold countSolved, len in *. rewrite Hcount, Hlen. tauto.
  - apply set_solved.
  - intros Hid.
    assert (Hwf : wellFormed s) by (repeat split; assumption).
    pose proof (set_unsolved s id value Hwf Hid) as Hset.
    pose proof (index_Ok_lt _ _ _ Hid) as Hrange.
    eexists. split; [exact Hset|].
    split; [eapply reach_set; eassumption|]. simpl.
    assert (len (values s) = len (solved s)) by (unfold len; lia).
    split; [apply index_insert_same; lia|].
    split; [apply index_insert_same; lia|].
    split; [reflexivity|].
    intros w Hw. split; apply index_insert_other; lia.
Qed.

Lemma set_solves_each_wire_once_witness :
  reachable examples.fresh /\
  exists s', set examples.fresh 1 7 = Ok s' /\ reachable s' /\
    index (values s') 1 = Ok 7 /\ index (solved s') 1 = Ok true /\
    nbSolved s' = 1.
Proof.
  assert (Hreach : reachable examples.fresh).
  { apply (reach_new 3 [] examples.table); [unfold max_int; lia|reflexivity]. }
  split; [exact Hreach|].
  destruct (set_solves_each_wire_once examples.fresh 1 7 Hreach) as (_ & _ & Hset).
  destruct (Hset eq_refl) as (s' & H1 & H2 & H3 & H4 & H5 & _).
  exists s'. repeat split; assumption.
Defined.

(** *** Field facts *)

Lemma Modulus_pos : 1 < fr.Modulus.
Proof. reflexivity. Qed.

Lemma Mul_zero (v : fr.Element) : fr.Mul fr.zero v = fr.zero.
Proof. unfold fr.Mul, fr.zero. rewrite Z.mul_0_l. apply Z.mod_0_l. pose proof Modulus_pos; lia. Qed.

Lemma Mul_one (v : fr.Element) : fr.canonical v -> fr.Mul fr.one v = v.
Proof.
  unfold fr.Mul, fr.one, fr.canonical. intros Hv.
  rewrite Z.mul_1_l. apply Z.mod_small. exact Hv.
Qed.

Lemma Mul_two (v : fr.Element) : fr.Mul fr.two v = fr.Double v.
Proof. unfold fr.Mul, fr.two, fr.Double. f_equal. ring. Qed.

Lemma Mul_minusOne (v : fr.Element) : fr.canonical v -> fr.Mul fr.minusOne v = fr.Neg v.
Proof.
  unfold fr.Mul, fr.minusOne, fr.Neg, fr.canonical. intros Hv.
  pose proof Modulus_pos as Hq.
  destruct (Z.eqb_spec v 0) as [->|Hnz].
  - rewrite Z.mul_0_r. apply Z.mod_0_l. lia.
  - symmetry. apply (Z.mod_unique_pos _ _ (v - 1)); [lia|ring].
Qed.

(** *** [computeTerm] *)

Lemma reserved_pairwise `{Consts} :
  reservedDistinct ->
  CoeffIdZero <> CoeffIdOne /\ CoeffIdZero <> CoeffIdTwo /\
  CoeffIdZero <> CoeffIdMinusOne /\ CoeffIdOne <> CoeffIdTwo /\
  CoeffIdOne <> CoeffIdMinusOne /\ CoeffIdTwo <> CoeffIdMinusOne.
Proof.
  unfold reservedDistinct. rewrite !NoDup_cons, !elem_of_cons.
  intros (H1 & H2 & H3 & _). repeat split; intros Heq; tauto.
Qed.

Lemma unsolved_wire_not_index : unsolved_wire <> index_out_of_range.
Proof. discriminate. Qed.

(** C2: on a solved wire holding the field element [v], a term with a
    reserved coefficient evaluates to the general product of the literal
    (0, 1, 2 or -1) with [v]. *)
Theorem computeTerm_reserved_is_product `{C : Consts} (s : solution) (t : Term)
    (v : fr.Element) :
  reservedDistinct ->
  index (solved s) (vID t) = Ok true ->
  index (values s) (vID t) = Ok v ->
  fr.canonical v ->
  (cID t = CoeffIdZero -> computeTerm s t = Ok (fr.Mul fr.zero v)) /\
  (cID t = CoeffIdOne -> computeTerm s t = Ok (fr.Mul fr.one v)) /\
  (cID t = CoeffIdTwo -> computeTerm s t = Ok (fr.Mul fr.two v)) /\
  (cID t = CoeffIdMinusOne -> computeTerm s t = Ok (fr.Mul fr.minusOne v)).
Proof.
  intros Hdist Hsolved Hval Hcanon.
  destruct (reserved_pairwise Hdist) as (H01 & H02 & H03 & H12 & H13 & H23).
  rewrite Mul_zero, Mul_one, Mul_two, Mul_minusOne by assumption.
  unfold computeTerm, Unpack. rewrite Hsolved, Hval.
  repeat split; intros ->; destruct (negb _); simpl;
    repeat (rewrite Z.eqb_refl || (rewrite (proj2 (Z.eqb_neq _ _)) by congruence));
    reflexivity.
Qed.

Lemma consts_reservedDistinct : @reservedDistinct examples.consts.
Proof.
  unfold reservedDistinct; simpl.
  repeat (apply NoDup_cons_2; [rewrite ?elem_of_cons, elem_of_nil; lia|]).
  apply NoDup_nil_2.
Qed.

Lemma computeTerm_reserved_is_product_witness :
  @reservedDistinct examples.consts /\
  index (solved examples.partly) 1 = Ok true /\
  index (values examples.partly) 1 = Ok 8 /\
  fr.canonical 8 /\
  @computeTerm examples.consts examples.partly (mkTerm 3 1 Secret)
  = Ok (fr.Mul fr.minusOne 8).
Proof.
  pose proof consts_reservedDistinct as Hdist.
  assert (Hcanon : fr.canonical 8) by (unfold fr.canonical, fr.Modulus; lia).
  split; [exact Hdist|]. split; [reflexivity|]. split; [reflexivity|].
  split; [exact Hcanon|].
  apply (@computeTerm_reserved_is_product examples.consts examples.partly
           (mkTerm 3 1 Secret) 8 Hdist eq_refl eq_refl Hcanon).
  reflexivity.
Defined.

Lemma computeTerm_returns `{C : Consts} (s : solution) (t : Term) :
  index (solved s) (vID t) = Ok true ->
  length (values s) = length (solved s) ->
  isReserved (cID t) \/ 0 <= cID t < len (coefficients s) ->
  exists r, computeTerm s t = Ok r.
Proof.
  intros Hsolved Hlen Hc.
  pose proof (index_Ok_lt _ _ _ Hsolved) as Hrange.
  destruct (index_in_range (values s) (vID t)) as [v Hv]; [unfold len in *; lia|].
  unfold computeTerm, Unpack. rewrite Hsolved, Hv.
  destruct (negb (cID t =? 0)); simpl;
    destruct (cID t =? CoeffIdZero) eqn:E0; eauto;
    destruct (cID t =? CoeffIdOne) eqn:E1; eauto;
    destruct (cID t =? CoeffIdTwo) eqn:E2; simpl; eauto;
    destruct (cID t =? CoeffIdMinusOne) eqn:E3; simpl; eauto;
    (destruct Hc as [Hc|Hc];
     [unfold isReserved in Hc; apply Z.eqb_neq in E0, E1, E2, E3; tauto|];
     destruct (index_in_range (coefficients s) (cID t) Hc) as [c Hcoef];
     rewrite Hcoef; simpl; eauto).
Qed.

(** C3: [computeTerm] panics over an unsolved wire exactly when the
    coefficient is not the reserved zero and the wire's marker is unset;
    with the reserved zero it returns the zero element whatever the solution
    holds (the wire is not looked at, solved or not, existing or not); and
    on a solved wire, with a coefficient that is reserved or in the table, it
    returns. *)
Theorem computeTerm_panics_iff_unsolved `{C : Consts} (s : solution) (t : Term) :
  reservedZero ->
  (computeTerm s t = Panic unsolved_wire <->
     cID t <> CoeffIdZero /\ index (solved s) (vID t) = Ok false) /\
  (cID t = CoeffIdZero -> computeTerm s t = Ok fr.zero) /\
  (index (solved s) (vID t) = Ok true ->
   length (values s) = length (solved s) ->
   isReserved (cID t) \/ 0 <= cID t < len (coefficients s) ->
   exists r, computeTerm s t = Ok r).
Proof.
  unfold reservedZero. intros Hzero.
  split; [|split].
  - unfold computeTerm, Unpack. rewrite <- Hzero.
    destruct (Z.eqb_spec (cID t) CoeffIdZero) as [Heq|Hne]; simpl.
    + split; [discriminate|]. intros [? _]; contradiction.
    + destruct (index (solved s) (vID t)) as [[|]|msg] eqn:Hsolved; simpl.
      * split; [|intros [_ ?]; discriminate].
        intros Hpanic. exfalso.
        repeat match type of Hpanic with
               | (if ?b then _ else _) = _ => destruct b
               end;
        repeat match type of Hpanic with
               | context [index ?l ?i] =>
                   let E := fresh "E" in
                   destruct (index l i) eqn:E; simpl in Hpanic;
                   [|apply index_panics in E]
               end; try discriminate;
        injection Hpanic as Hmsg; subst; discriminate.
      * split; [intros _; split; [exact Hne|reflexivity]|reflexivity].
      * split; [|intros [_ ?]; discriminate].
        intros [= Hmsg]. apply index_panics in Hsolved. subst. discriminate.
  - intros Hc. unfold computeTerm, Unpack. rewrite Hc, Hzero. reflexivity.
  - apply computeTerm_returns.
Qed.

Lemma computeTerm_panics_iff_unsolved_witness :
  @reservedZero examples.consts /\
  @computeTerm examples.consts examples.partly (mkTerm 4 2 Internal)
  = Panic unsolved_wire /\
  @computeTerm examples.consts examples.partly (mkTerm 0 2 Internal) = Ok fr.zero.
Proof.
  assert (Hzero : @reservedZero examples.consts) by reflexivity.
  destruct (@computeTerm_panics_iff_unsolved examples.consts examples.partly
              (mkTerm 4 2 Internal) Hzero) as ([_ Hpanic] & _ & _).
  destruct (@computeTerm_panics_iff_unsolved examples.consts examples.partly
              (mkTerm 0 2 Internal) Hzero) as (_ & Hret & _).
  split; [exact Hzero|]. split.
  - apply Hpanic. split; [discriminate|reflexivity].
  - apply Hret. reflexivity.
Defined.

(** *** The log evaluator *)

(** C10: outside span evaluation, a term that is not the delimiter adds to
    the arguments of the format: for a constant, "-1" when its coefficient
    is the reserved minus one and the text of the table's coefficient
    otherwise; for a wire, first the text of the coefficient unless the
    coefficient is the reserved one or minus one, then the text of the
    wire's value if the wire is solved and "<unsolved>" if it is not.
    Nothing else of the loop's state changes. *)
Theorem logStep_outside_span `{C : Consts} `{P : Printing}
    (s : solution) (st : logState) (t : Term) :
  isEval st = false ->
  Term_eqb t TermDelimitor = false ->
  (visibility t = Virtual ->
     (cID t = CoeffIdMinusOne -> logStep s st t = Ok (append st "-1")) /\
     (cID t <> CoeffIdMinusOne ->
      forall c, index (coefficients s) (cID t) = Ok c ->
        logStep s st t = Ok (append st (Element_String c)))) /\
  (visibility t <> Virtual ->
     forall (b : bool) (v : fr.Element),
       index (solved s) (vID t) = Ok b ->
       (b = true -> index (values s) (vID t) = Ok v) ->
       let wire := if b then Element_String v else unsolvedVariable in
       (cID t = CoeffIdOne \/ cID t = CoeffIdMinusOne ->
          logStep s st t = Ok (append st wire)) /\
       (cID t <> CoeffIdOne -> cID t <> CoeffIdMinusOne ->
        forall c, index (coefficients s) (cID t) = Ok c ->
          logStep s st t = Ok (append (append st (Element_String c)) wire))).
Proof.
  intros Heval Hdelim. unfold logStep, Unpack. rewrite Hdelim, Heval.
  split.
  - intros Hvis. rewrite Hvis. simpl. split.
    + intros ->. rewrite Z.eqb_refl. reflexivity.
    + intros Hne c Hc. rewrite (proj2 (Z.eqb_neq _ _) Hne), Hc. reflexivity.
  - intros Hvis b v Hb Hv. cbv zeta.
    assert (Hnv : Visibility_eqb (visibility t) Virtual = false).
    { destruct (Visibility_eqb (visibility t) Virtual) eqn:E; [|reflexivity].
      apply Visibility_eqb_eq in E. contradiction. }
    rewrite Hnv. split.
    + intros Hone.
      assert (Hor : (cID t =? CoeffIdMinusOne) || (cID t =? CoeffIdOne) = true).
      { apply orb_true_iff. rewrite !Z.eqb_eq. tauto. }
      rewrite Hor. simpl. rewrite Hb. simpl.
      destruct b; simpl; [rewrite Hv by reflexivity|]; reflexivity.
    + intros H1 H2 c Hc.
      rewrite (proj2 (Z.eqb_neq _ _) H1), (proj2 (Z.eqb_neq _ _) H2), Hc. simpl.
      rewrite Hb. simpl.
      destruct b; simpl; [rewrite Hv by reflexivity|]; reflexivity.
Qed.

(** *** Hint resolution: the pieces *)

Lemma store_Ok_inv {A : Type} (l l' : list A) (i : Z) (a : A) :
  store l i a = Ok l' -> 0 <= i < len l /\ l' = <[Z.to_nat i := a]> l.
Proof.
  unfold store. destruct (Z.ltb_spec i 0); [discriminate|].
  destruct (Z.ltb_spec i (len l)); [|discriminate].
  intros [= <-]. split; [lia|reflexivity].
Qed.

Lemma set_Ok_inv (s s' : solution) (id : Z) (value : fr.Element) :
  set s id value = Ok s' ->
  index (solved s) id = Ok false /\
  0 <= id < len (values s) /\ 0 <= id < len (solved s) /\
  s' = {| values := <[Z.to_nat id := value]> (values s);
          coefficients := coefficients s;
          solved := <[Z.to_nat id := true]> (solved s);
          nbSolved := int_wrap (nbSolved s + 1);
          mHintsFunctions := mHintsFunctions s |}.
Proof.
  unfold set. destruct (index (solved s) id) as [[|]|msg] eqn:Hid; simpl; try discriminate.
  destruct (store (values s) id value) as [vs|] eqn:Hvs; simpl; [|discriminate].
  destruct (store (solved s) id true) as [sv|] eqn:Hsv; simpl; [|discriminate].
  apply store_Ok_inv in Hvs, Hsv. destruct Hvs as [Hr1 ->], Hsv as [Hr2 ->].
  intros [= <-]. auto.
Qed.

Lemma set_keeps_solved (s s' : solution) (id : Z) (value : fr.Element) :
  set s id value = Ok s' ->
  index (solved s') id = Ok true /\
  forall x, index (solved s) x = Ok true -> index (solved s') x = Ok true.
Proof.
  intros Hset. apply set_Ok_inv in Hset.
  destruct Hset as (Hid & Hr1 & Hr2 & ->). simpl. split.
  - apply index_insert_same. exact Hr2.
  - intros x Hx. rewrite index_insert_other; [exact Hx|lia|].
    intros ->. congruence.
Qed.

Lemma setOutputs_solved (wires outputs : list Z) (s s' : solution) (i : Z) :
  setOutputs s wires outputs i = Ok s' ->
  (forall x, index (solved s) x = Ok true -> index (solved s') x = Ok true) /\
  (forall k, 0 <= k < len outputs ->
     exists w, index wires (i + k) = Ok w /\ index (solved s') w = Ok true).
Proof.
  revert s i. induction outputs as [|o outputs IH]; intros s i Hrun; simpl in Hrun.
  - injection Hrun as <-. split; [auto|]. unfold len; simpl. intros k Hk; lia.
  - destruct (index wires i) as [w|] eqn:Hw; simpl in Hrun; [|discriminate].
    destruct (set s w (fr.SetBigInt o)) as [s1|] eqn:Hset; simpl in Hrun; [|discriminate].
    destruct (set_keeps_solved _ _ _ _ Hset) as [Hw1 Hkeep1].
    destruct (IH _ _ Hrun) as [Hkeep Hrest].
    split; [auto|].
    intros k Hk. unfold len in Hk; simpl length in Hk.
    destruct (Z.eq_dec k 0) as [->|Hk0].
    + exists w. rewrite Z.add_0_r. auto.
    + destruct (Hrest (k - 1)) as (w' & Hw' & Hs'); [unfold len; lia|].
      exists w'. replace (i + k) with (i + 1 + (k - 1)) by lia. auto.
Qed.

Lemma GetN_length (n : nat) (pool : bigIntPool) : length (GetN n pool).1 = n.
Proof.
  revert pool. induction n as [|n IH]; intros pool; simpl; [reflexivity|].
  destruct (Get pool) as [x pool1]. specialize (IH pool1).
  destruct (GetN n pool1) as [xs pool2]. simpl in *. congruence.
Qed.

Lemma writeBack_length (old new : list Z) : length (writeBack old new) = length old.
Proof.
  revert new. induction old as [|o old IH]; intros [|n new]; simpl; auto.
Qed.

Lemma evalInputs_length `{C : Consts} (s : solution) (ins : list Variable_)
    (lambda lambda' : Z) (inputs : list Z) (ok : bool) :
  evalInputs s ins lambda = Ok (inputs, lambda', ok) -> length inputs = length ins.
Proof.
  revert lambda lambda' inputs ok.
  induction ins as [|v ins IH]; intros lambda lambda' inputs ok Hrun; simpl in Hrun.
  - injection Hrun as <- <- <-. reflexivity.
  - destruct (evalInput s (terms v) 0 lambda) as [[[acc lam1] ok1]|] eqn:Hin;
      simpl in Hrun; [|discriminate].
    destruct ok1.
    + destruct (evalInputs s ins lam1) as [[[rest lam2] ok2]|] eqn:Hrest;
        simpl in Hrun; [|discriminate].
      injection Hrun as <- <- <-. simpl. f_equal. eapply IH. exact Hrest.
    + injection Hrun as <- <- <-. simpl. rewrite length_map. reflexivity.
Qed.

Lemma callHint_Ok_inv `{C : Consts} (s s' : solution) (pool pool' : bigIntPool)
    (f : hint.AnnotatedFunction) (h : Hint) (inputs : list Z) (lambda : Z)
    (err : option error) :
  callHint s pool f h inputs lambda = Ok (s', pool', err) ->
  exists outputs,
    len outputs = hint.TotalOutputs f (len inputs) /\
    setOutputs s (Wires h) outputs 0 = Ok s'.
Proof.
  unfold callHint.
  destruct (Z.ltb_spec (hint.TotalOutputs f (len inputs)) 0) as [|Hnn]; [discriminate|].
  destruct (Z.eqb_spec (hint.TotalOutputs f (len inputs)) 0) as [|Hnz]; [discriminate|].
  pose proof (GetN_length (Z.to_nat (hint.TotalOutputs f (len inputs)) - 1) pool) as Hlen.
  destruct (GetN _ pool) as [others pool1]. simpl in Hlen.
  destruct (hint.Call f _ _ _) as [[res e]|]; simpl; [|discriminate].
  destruct (setOutputs s (Wires h) _ 0) as [s1|] eqn:Hset; simpl; [|discriminate].
  intros [= <- <- <-]. exists (writeBack (lambda :: others) res).
  split; [|exact Hset].
  unfold len in *. rewrite writeBack_length. simpl length. lia.
Qed.

Lemma solveWithHint_on_solved `{C : Consts} (s : solution) (pool : bigIntPool)
    (vID : Z) (h : Hint) :
  index (solved s) vID = Ok true -> solveWithHint s pool vID h = Ok (s, pool, None).
Proof. intros Hsolved. unfold solveWithHint. rewrite Hsolved. reflexivity. Qed.

Lemma solveWithHint_success_inv `{C : Consts} (s s' : solution)
    (pool pool' : bigIntPool) (vID : Z) (h : Hint) (f : hint.AnnotatedFunction) :
  index (solved s) vID = Ok false ->
  mHintsFunctions s !! ID h = Some f ->
  solveWithHint s pool vID h = Ok (s', pool', None) ->
  exists inputs lambda pool1,
    length inputs = length (Inputs h) /\
    callHint s pool1 f h inputs lambda = Ok (s', pool', None).
Proof.
  intros Hv Hf. unfold solveWithHint. rewrite Hv, Hf. simpl.
  destruct (GetN (length (Inputs h)) pool) as [junk pool1].
  destruct (Get pool1) as [lambda pool2].
  destruct (evalInputs s (Inputs h) lambda) as [[[inputs lam] ok]|] eqn:Hin;
    simpl; [|discriminate].
  destruct ok; simpl; [|discriminate].
  intros Hcall. exists inputs, lam, pool2. split; [|exact Hcall].
  eapply evalInputs_length. exact Hin.
Qed.

(** C6: asked to resolve a wire that is already solved, [solveWithHint]
    returns [nil] and leaves the solution and the pool as they are; so after
    a call that went through a hint with several outputs, the other calls
    for the wires that call filled, however often repeated, change nothing
    and return [nil]. *)
Theorem solveWithHint_solved_wire_is_noop `{C : Consts} (s : solution)
    (pool : bigIntPool) (vID : Z) (h : Hint) :
  (index (solved s) vID = Ok true ->
     solveWithHint s pool vID h = Ok (s, pool, None)) /\
  (forall (f : hint.AnnotatedFunction) (s' : solution) (pool' : bigIntPool),
     index (solved s) vID = Ok false ->
     mHintsFunctions s !! ID h = Some f ->
     solveWithHint s pool vID h = Ok (s', pool', None) ->
     forall i, 0 <= i < hint.TotalOutputs f (len (Inputs h)) ->
       exists w, index (Wires h) i = Ok w /\
         index (solved s') w = Ok true /\
         forall pool2,
           solveWithHint s' pool2 w h = Ok (s', pool2, None) /\
           bind (solveWithHint s' pool2 w h)
                (fun '(s2, pool3, _) => solveWithHint s2 pool3 w h)
           = Ok (s', pool2, None)).
Proof.
  split; [apply solveWithHint_on_solved|].
  intros f s' pool' Hv Hf Hrun i Hi.
  destruct (solveWithHint_success_inv _ _ _ _ _ _ _ Hv Hf Hrun)
    as (inputs & lambda & pool1 & Hlen & Hcall).
  destruct (callHint_Ok_inv _ _ _ _ _ _ _ _ _ Hcall) as (outputs & Hout & Hset).
  destruct (setOutputs_solved _ _ _ _ _ Hset) as [_ Hwires].
  assert (Hlen' : len inputs = len (Inputs h)) by (unfold len; lia).
  destruct (Hwires i) as (w & Hw & Hsolved); [rewrite Hout, Hlen'; exact Hi|].
  exists w. simpl in Hw. split; [exact Hw|]. split; [exact Hsolved|].
  intros pool2.
  rewrite (solveWithHint_on_solved s' pool2 w h Hsolved). simpl.
  split; [reflexivity|]. apply solveWithHint_on_solved. exact Hsolved.
Qed.

(** *** Hint resolution: the inputs *)

Lemma evalInput_step `{C : Consts} (s : solution) (t : Term) (ts : list Term)
    (acc lambda x : Z) :
  resolved s t -> termValue s t = Ok x ->
  evalInput s (t :: ts) acc lambda = evalInput s ts (acc + x) x.
Proof.
  unfold resolved, termValue. intros Hres Hval. simpl. unfold Unpack.
  destruct (Visibility_eqb (visibility t) Virtual) eqn:Hvis.
  - rewrite Hval. reflexivity.
  - destruct Hres as [Hres|Hres].
    + apply Visibility_eqb_eq in Hres. congruence.
    + rewrite Hres. simpl. rewrite Hval. reflexivity.
Qed.

Lemma termValue_returns `{C : Consts} (s : solution) (t : Term) :
  length (values s) = length (solved s) ->
  termInRange s t -> resolved s t -> exists x, termValue s t = Ok x.
Proof.
  intros Hlen [Hc Hv] Hres. unfold termValue.
  destruct (Visibility_eqb (visibility t) Virtual) eqn:Hvis.
  - apply index_in_range. exact Hc.
  - destruct Hres as [Hres|Hres].
    + apply Visibility_eqb_eq in Hres. congruence.
    + apply computeTerm_returns; auto.
Qed.

Lemma evalInput_resolved `{C : Consts} (s : solution) (ts : list Term) (acc lambda : Z) :
  length (values s) = length (solved s) ->
  Forall (termInRange s) ts -> Forall (resolved s) ts ->
  exists total lambda',
    linearValue s ts = Ok total /\
    evalInput s ts acc lambda = Ok (acc + total, lambda', true).
Proof.
  intros Hlen Hrange Hres. revert acc lambda.
  induction ts as [|t ts IH]; intros acc lambda.
  - exists 0, lambda. simpl. rewrite Z.add_0_r. auto.
  - apply Forall_cons in Hrange, Hres.
    destruct Hrange as [Ht Hrange], Hres as [Hrt Hres].
    destruct (termValue_returns s t Hlen Ht Hrt) as [x Hx].
    destruct (IH Hrange Hres (acc + x) x) as (total & lambda' & Hsum & Hrun).
    exists (x + total), lambda'. split.
    + simpl. rewrite Hx. simpl. rewrite Hsum. reflexivity.
    + rewrite (evalInput_step s t ts acc lambda x Hrt Hx), Hrun.
      do 3 f_equal. ring.
Qed.

Lemma evalInput_unresolved `{C : Consts} (s : solution) (ts : list Term) (acc lambda : Z) :
  length (values s) = length (solved s) ->
  Forall (termInRange s) ts ->
  Exists (fun t => visibility t <> Virtual /\ index (solved s) (vID t) = Ok false) ts ->
  exists acc' lambda', evalInput s ts acc lambda = Ok (acc', lambda', false).
Proof.
  intros Hlen Hrange Hex. revert acc lambda.
  induction ts as [|t ts IH]; intros acc lambda; [inversion Hex|].
  apply Forall_cons in Hrange. destruct Hrange as [Ht Hrange].
  destruct (index_in_range (solved s) (vID t) (proj2 Ht)) as [b Hb].
  destruct (Visibility_eqb (visibility t) Virtual) eqn:Hvis.
  - assert (Hrt : resolved s t) by (left; apply Visibility_eqb_eq; exact Hvis).
    destruct (termValue_returns s t Hlen Ht Hrt) as [x Hx].
    rewrite (evalInput_step s t ts acc lambda x Hrt Hx).
    apply IH; [exact Hrange|].
    apply Exists_cons in Hex. destruct Hex as [[Hnv _]|Hex]; [|exact Hex].
    apply Visibility_eqb_eq in Hvis. contradiction.
  - destruct b.
    + assert (Hrt : resolved s t) by (right; exact Hb).
      destruct (termValue_returns s t Hlen Ht Hrt) as [x Hx].
      rewrite (evalInput_step s t ts acc lambda x Hrt Hx).
      apply IH; [exact Hrange|].
      apply Exists_cons in Hex. destruct Hex as [[_ Hf]|Hex]; [congruence|exact Hex].
    + exists acc, lambda. simpl. unfold Unpack. rewrite Hvis, Hb. reflexivity.
Qed.

Lemma resolved_or_not (s : solution) (ts : list Term) :
  Forall (termInRange s) ts ->
  Forall (resolved s) ts \/
  Exists (fun t => visibility t <> Virtual /\ index (solved s) (vID t) = Ok false) ts.
Proof.
  induction ts as [|t ts IH]; intros Hrange; [left; constructor|].
  apply Forall_cons in Hrange. destruct Hrange as [Ht Hrange].
  destruct (IH Hrange) as [Hall|Hex]; [|right; apply Exists_cons; auto].
  destruct (index_in_range (solved s) (vID t) (proj2 Ht)) as [b Hb].
  destruct (Visibility_eqb (visibility t) Virtual) eqn:Hvis.
  - left. constructor; [left; apply Visibility_eqb_eq; exact Hvis|exact Hall].
  - destruct b.
    + left. constructor; [right; exact Hb|exact Hall].
    + right. apply Exists_cons. left. split; [|exact Hb].
      intros Heq. apply Visibility_eqb_eq in Heq. congruence.
Qed.

Lemma resolved_not_unresolved (s : solution) (ts : list Term) :
  Forall (resolved s) ts ->
  Exists (fun t => visibility t <> Virtual /\ index (solved s) (vID t) = Ok false) ts ->
  False.
Proof.
  intros Hall Hex. apply Exists_exists in Hex. destruct Hex as (t & Hin & Hnv & Hf).
  rewrite Forall_forall in Hall. destruct (Hall t Hin) as [Hv|Ht]; congruence.
Qed.

Lemma evalInputs_resolved `{C : Consts} (s : solution) (ins : list Variable_) (lambda : Z) :
  length (values s) = length (solved s) ->
  Forall (fun v => Forall (termInRange s) (terms v)) ins ->
  Forall (fun v => Forall (resolved s) (terms v)) ins ->
  exists vals lambda',
    Forall2 (fun v x => linearValue s (terms v) = Ok x) ins vals /\
    evalInputs s ins lambda = Ok (vals, lambda', true).
Proof.
  intros Hlen Hrange Hres. revert lambda.
  induction ins as [|v ins IH]; intros lambda.
  - exists [], lambda. split; [constructor|reflexivity].
  - apply Forall_cons in Hrange, Hres.
    destruct Hrange as [Hv Hrange], Hres as [Hrv Hres].
    destruct (evalInput_resolved s (terms v) 0 lambda Hlen Hv Hrv)
      as (total & lam1 & Hsum & Hrun).
    destruct (IH Hrange Hres lam1) as (vals & lam2 & Hvals & Hrest).
    exists (total :: vals), lam2. split; [constructor; assumption|].
    simpl. rewrite Hrun. simpl. rewrite Hrest. reflexivity.
Qed.

Lemma evalInputs_unresolved `{C : Consts} (s : solution) (ins : list Variable_) (lambda : Z) :
  length (values s) = length (solved s) ->
  Forall (fun v => Forall (termInRange s) (terms v)) ins ->
  Exists (fun v => Exists (fun t => visibility t <> Virtual /\
                                    index (solved s) (vID t) = Ok false) (terms v)) ins ->
  exists vals lambda', evalInputs s ins lambda = Ok (vals, lambda', false).
Proof.
  intros Hlen Hrange Hex. revert lambda.
  induction ins as [|v ins IH]; intros lambda; [inversion Hex|].
  apply Forall_cons in Hrange. destruct Hrange as [Hv Hrange].
  destruct (resolved_or_not s (terms v) Hv) as [Hall|Hbad].
  - destruct (evalInput_resolved s (terms v) 0 lambda Hlen Hv Hall)
      as (total & lam1 & _ & Hrun).
    apply Exists_cons in Hex. destruct Hex as [Hbad|Hex].
    + destruct (resolved_not_unresolved s (terms v) Hall Hbad).
    + destruct (IH Hrange Hex lam1) as (vals & lam2 & Hrest).
      exists (0 + total :: vals), lam2.
      simpl. rewrite Hrun. simpl. rewrite Hrest. reflexivity.
  - destruct (evalInput_unresolved s (terms v) 0 lambda Hlen Hv Hbad)
      as (acc & lam1 & Hrun).
    eexists _, _. simpl. rewrite Hrun. reflexivity.
Qed.

Lemma inputsInRange_Forall (s : solution) (h : Hint) :
  inputsInRange s h -> Forall (fun v => Forall (termInRange s) (terms v)) (Inputs h).
Proof.
  intros Hrange. apply Forall_forall. intros v Hv.
  apply Forall_forall. intros t Ht. exact (Hrange v t Hv Ht).
Qed.

(** C7: when [solveWithHint] gets to evaluate the inputs of a hint (the
    wire asked for is unsolved, the hint function is there), over terms whose
    identifiers are in range: if every wire term of every input is solved,
    each input evaluates to the sum of the coefficients of its constant
    terms and of [computeTerm] of its wire terms, and the hint is called on
    these sums; if some wire term of some input is not solved, the result is
    the error "expected wire to be instantiated while evaluating hint" and
    the solution is as it was. *)
Theorem solveWithHint_evaluates_inputs `{C : Consts} (s : solution)
    (pool : bigIntPool) (wireID : Z) (h : Hint) (f : hint.AnnotatedFunction) :
  length (values s) = length (solved s) ->
  inputsInRange s h ->
  index (solved s) wireID = Ok false ->
  mHintsFunctions s !! ID h = Some f ->
  ((forall v t, v ∈ Inputs h -> t ∈ terms v -> resolved s t) ->
     exists vals lambda pool1,
       Forall2 (fun v x => linearValue s (terms v) = Ok x) (Inputs h) vals /\
       solveWithHint s pool wireID h = callHint s pool1 f h vals lambda) /\
  ((exists v t, v ∈ Inputs h /\ t ∈ terms v /\
                visibility t <> Virtual /\ index (solved s) (vID t) = Ok false) ->
     exists pool',
       solveWithHint s pool wireID h = Ok (s, pool', Some ErrWireNotInstantiated)).
Proof.
  intros Hlen Hrange Hv Hf.
  apply inputsInRange_Forall in Hrange.
  unfold solveWithHint. rewrite Hv, Hf. simpl.
  destruct (GetN (length (Inputs h)) pool) as [junk pool1].
  destruct (Get pool1) as [lambda pool2].
  split.
  - intros Hres.
    assert (Hall : Forall (fun v => Forall (resolved s) (terms v)) (Inputs h)).
    { apply Forall_forall. intros v Hin. apply Forall_forall. intros t Ht.
      exact (Hres v t Hin Ht). }
    destruct (evalInputs_resolved s (Inputs h) lambda Hlen Hrange Hall)
      as (vals & lam & Hvals & Hrun).
    exists vals, lam, pool2. split; [exact Hvals|].
    rewrite Hrun. reflexivity.
  - intros (v & t & Hin & Ht & Hnv & Hun).
    assert (Hex : Exists (fun v => Exists (fun t => visibility t <> Virtual /\
                     index (solved s) (vID t) = Ok false) (terms v)) (Inputs h)).
    { apply Exists_exists. exists v. split; [exact Hin|].
      apply Exists_exists. exists t. auto. }
    destruct (evalInputs_unresolved s (Inputs h) lambda Hlen Hrange Hex)
      as (vals & lam & Hrun).
    rewrite Hrun. simpl. eauto.
Qed.

(** *** Hint resolution: the outputs *)

Lemma setOutputs_assigns (wires ws outputs : list Z) (s : solution) (n : nat) :
  wellFormed s ->
  length ws = length outputs ->
  (forall (k : nat) w, ws !! k = Some w -> wires !! (n + k)%nat = Some w) ->
  NoDup ws ->
  (forall w, w ∈ ws -> index (solved s) w = Ok false) ->
  exists s',
    setOutputs s wires outputs (Z.of_nat n) = Ok s' /\
    wellFormed s' /\
    nbSolved s' = nbSolved s + len outputs /\
    (forall (k : nat) w o, ws !! k = Some w -> outputs !! k = Some o ->
       index (values s') w = Ok (fr.SetBigInt o) /\ index (solved s') w = Ok true) /\
    (forall x, x ∉ ws ->
       index (values s') x = index (values s) x /\
       index (solved s') x = index (solved s) x).
Proof.
  revert ws s n. induction outputs as [|o outputs IH]; intros ws s n Hwf Hlen Hwires Hnd Hun.
  - destruct ws; [|discriminate]. exists s.
    split; [reflexivity|]. split; [exact Hwf|].
    split; [unfold len; simpl; lia|].
    split; [intros k w o' Hk; discriminate|auto].
  - destruct ws as [|w ws]; [discriminate|]. simpl in Hlen.
    apply NoDup_cons in Hnd. destruct Hnd as [Hfresh Hnd].
    assert (Hw : index (solved s) w = Ok false) by (apply Hun; left).
    pose proof (index_Ok_lt _ _ _ Hw) as Hrange.
    pose proof (set_unsolved s w (fr.SetBigInt o) Hwf Hw) as Hset.
    pose proof (set_wellFormed _ _ _ _ Hwf Hset) as Hwf1.
    set (s1 := {| values := <[Z.to_nat w := fr.SetBigInt o]> (values s);
                  coefficients := coefficients s;
                  solved := <[Z.to_nat w := true]> (solved s);
                  nbSolved := nbSolved s + 1;
                  mHintsFunctions := mHintsFunctions s |}) in *.
    assert (Hvlen : len (values s) = len (solved s)).
    { destruct Hwf as [Hl _]. unfold len. lia. }
    destruct (IH ws s1 (S n) Hwf1) as (s' & Hrun & Hwf' & Hnb & Hset' & Hother).
    + lia.
    + intros k w' Hk. replace (S n + k)%nat with (n + S k)%nat by lia.
      apply Hwires. exact Hk.
    + exact Hnd.
    + intros w' Hin. simpl. rewrite index_insert_other.
      * apply Hun. right. exact Hin.
      * lia.
      * intros ->. contradiction.
    + exists s'. split.
      { simpl. assert (Hidx : index wires (Z.of_nat n) = Ok w).
        { apply index_Ok. split; [lia|]. rewrite Nat2Z.id.
          replace n with (n + 0)%nat by lia. apply Hwires. reflexivity. }
        rewrite Hidx. simpl. rewrite Hset. simpl.
        replace (Z.of_nat n + 1) with (Z.of_nat (S n)) by lia. exact Hrun. }
      split; [exact Hwf'|].
      split; [rewrite Hnb; unfold len; simpl; lia|].
      split.
      { intros k w' o' Hk Ho. destruct k as [|k]; simpl in Hk, Ho.
        - injection Hk as <-. injection Ho as <-.
          destruct (Hother w Hfresh) as [Hv Hs]. rewrite Hv, Hs. simpl.
          split; apply index_insert_same; lia.
        - eapply Hset'; eassumption. }
      { intros x Hx. apply not_elem_of_cons in Hx. destruct Hx as [Hne Hx].
        destruct (Hother x Hx) as [Hv Hs]. rewrite Hv, Hs. simpl.
        split; apply index_insert_other; lia. }
Qed.

(** C1, as stated, fails: the failing hint of the example reports its error
    without writing to its output buffer, the error does reach the caller,
    but the output wire is assigned all the same (with what the scratch
    integer last held), so the solution is not as it was. *)
Lemma failed_hint_still_sets_its_wire :
  ~ (forall (C : Consts) (s : solution) (pool pool1 : bigIntPool) (wireID : Z)
            (h : Hint) (f : hint.AnnotatedFunction) (inputs : list Z)
            (lambda : Z) (outputs : list Z) (e : error),
       solveWithHint s pool wireID h = callHint s pool1 f h inputs lambda ->
       outputs = lambda :: (GetN (Z.to_nat (hint.TotalOutputs f (len inputs)) - 1) pool1).1 ->
       hint.Call f ecc.BLS12_381 (map (fun x => x mod fr.Modulus) inputs) outputs
       = Ok (outputs, Some e) ->
       exists pool', solveWithHint s pool wireID h = Ok (s, pool', Some e)).
Proof.
  intros Hclaim.
  destruct (Hclaim examples.consts examples.solving [99; 98; 97] [97] 3
              examples.undefinedCall examples.undefinedFixed [5] 5 [5]
              (ErrHint "undefined")) as [pool' Hrun].
  - vm_compute. reflexivity.
  - reflexivity.
  - reflexivity.
  - apply (f_equal (fun o => match o with
                             | Ok (s, _, _) => solved s
                             | Panic _ => []
                             end)) in Hrun.
    vm_compute in Hrun. discriminate.
Qed.

(** What the code does there: error returned, wire 3 solved with 5. *)
Example failed_hint_example :
  match @solveWithHint examples.consts examples.solving [99; 98; 97] 3
          examples.undefinedCall with
  | Ok (s', _, err) =>
      (values s', solved s', nbSolved s', err)
      = ([1; 5; 7; 5; 0], [true; true; true; true; false], 4,
         Some (ErrHint "undefined"))
  | Panic _ => False
  end.
Proof. vm_compute. reflexivity. Qed.

(** C1 (amended): when resolution reaches the call of the hint and the call
    returns an error, then, the output wires being distinct and unsolved,
    [solveWithHint] returns that error after it has set every output wire
    of the hint to the field element of the corresponding output buffer as
    the call left it, written by the hint or not; no other wire changes. *)
Theorem solveWithHint_returns_hint_error `{C : Consts} (s : solution)
    (pool pool1 : bigIntPool) (wireID : Z) (h : Hint) (f : hint.AnnotatedFunction)
    (inputs : list Z) (lambda n : Z) (outputs ws res : list Z) (e : error) :
  solveWithHint s pool wireID h = callHint s pool1 f h inputs lambda ->
  n = hint.TotalOutputs f (len inputs) ->
  0 < n ->
  outputs = lambda :: (GetN (Z.to_nat n - 1) pool1).1 ->
  hint.Call f ecc.BLS12_381 (map (fun x => x mod fr.Modulus) inputs) outputs
  = Ok (res, Some e) ->
  wellFormed s ->
  ws = take (Z.to_nat n) (Wires h) ->
  length ws = Z.to_nat n ->
  NoDup ws ->
  (forall w, w ∈ ws -> index (solved s) w = Ok false) ->
  exists s' pool',
    solveWithHint s pool wireID h = Ok (s', pool', Some e) /\
    nbSolved s' = nbSolved s + n /\
    (forall (k : nat) w o,
       ws !! k = Some w -> writeBack outputs res !! k = Some o ->
       index (values s') w = Ok (fr.SetBigInt o) /\ index (solved s') w = Ok true) /\
    (forall x, x ∉ ws ->
       index (values s') x = index (values s) x /\
       index (solved s') x = index (solved s) x).
Proof.
  intros Hreach Hn Hpos Hout Hcall Hwf Hws Hlen Hnd Hun.
  rewrite Hreach. unfold callHint. rewrite <- Hn.
  destruct (Z.ltb_spec n 0); [lia|].
  destruct (Z.eqb_spec n 0); [lia|].
  pose proof (GetN_length (Z.to_nat n - 1) pool1) as Hothers.
  destruct (GetN (Z.to_nat n - 1) pool1) as [others pool2]. simpl in Hout, Hothers.
  rewrite <- Hout, Hcall. simpl.
  destruct (setOutputs_assigns (Wires h) ws (writeBack outputs res) s 0 Hwf)
    as (s' & Hrun & _ & Hnb & Hset & Hother).
  - rewrite writeBack_length, Hout. simpl. lia.
  - intros k w Hk. rewrite Hws in Hk. apply lookup_take_Some in Hk.
    simpl. tauto.
  - exact Hnd.
  - exact Hun.
  - change (Z.of_nat 0) with 0 in Hrun. rewrite Hrun. simpl.
    eexists _, _. split; [reflexivity|].
    split; [|split; assumption].
    rewrite Hnb. unfold len. rewrite writeBack_length, Hout. simpl. lia.
Qed.

(** *** The statements at the examples *)

Lemma solving_wellFormed : wellFormed examples.solving.
Proof. unfold wellFormed, countSolved, len, max_int; simpl. lia. Qed.

Lemma UUID_doubleFixed : hint.UUID examples.doubleFixed = 755523263.
Proof. vm_compute. reflexivity. Qed.

Lemma UUID_undefinedFixed : hint.UUID examples.undefinedFixed = 3412895174.
Proof. vm_compute. reflexivity. Qed.

Lemma solving_has_undefined :
  mHintsFunctions examples.solving !! ID examples.undefinedCall
  = Some examples.undefinedFixed.
Proof.
  unfold examples.solving, examples.undefinedCall.
  cbn [mHintsFunctions ID].
  rewrite lookup_insert_ne by (rewrite UUID_doubleFixed, UUID_undefinedFixed; lia).
  apply lookup_insert_eq.
Qed.

Lemma solving_has_double :
  mHintsFunctions examples.solving !! ID examples.doubleHint
  = Some examples.doubleFixed.
Proof.
  unfold examples.solving, examples.doubleHint.
  cbn [mHintsFunctions ID]. apply lookup_insert_eq.
Qed.

Lemma solveWithHint_returns_hint_error_witness :
  wellFormed examples.solving /\
  hint.Call examples.undefinedFixed ecc.BLS12_381 [5] [5]
  = Ok ([5], Some (ErrHint "undefined")) /\
  exists s' pool',
    @solveWithHint examples.consts examples.solving [99; 98; 97] 3
      examples.undefinedCall = Ok (s', pool', Some (ErrHint "undefined")) /\
    nbSolved s' = 4 /\
    index (values s') 3 = Ok 5 /\ index (solved s') 3 = Ok true.
Proof.
  split; [exact solving_wellFormed|]. split; [reflexivity|].
  destruct (@solveWithHint_returns_hint_error examples.consts examples.solving
              [99; 98; 97] [97] 3 examples.undefinedCall examples.undefinedFixed
              [5] 5 1 [5] [3] [5] (ErrHint "undefined"))
    as (s' & pool' & Hrun & Hnb & Hset & _).
  - vm_compute. reflexivity.
  - reflexivity.
  - lia.
  - reflexivity.
  - reflexivity.
  - exact solving_wellFormed.
  - reflexivity.
  - reflexivity.
  - apply NoDup_singleton.
  - intros w Hw. apply list_elem_of_singleton in Hw. subst w. reflexivity.
  - exists s', pool'. split; [exact Hrun|]. split; [exact Hnb|].
    exact (Hset 0%nat 3 5 eq_refl eq_refl).
Defined.

Lemma solveWithHint_solved_wire_is_noop_witness :
  index (solved examples.solving) 3 = Ok false /\
  exists s' pool',
    @solveWithHint examples.consts examples.solving [] 3 examples.doubleHint
    = Ok (s', pool', None) /\
    index (solved s') 4 = Ok true /\
    forall pool2,
      @solveWithHint examples.consts s' pool2 4 examples.doubleHint
      = Ok (s', pool2, None).
Proof.
  split; [reflexivity|].
  assert (Hrun : exists s' pool',
             @solveWithHint examples.consts examples.solving [] 3 examples.doubleHint
             = Ok (s', pool', None)).
  { vm_compute. eexists _, _. reflexivity. }
  destruct Hrun as (s' & pool' & Hrun). exists s', pool'.
  split; [exact Hrun|].
  destruct (@solveWithHint_solved_wire_is_noop examples.consts examples.solving []
              3 examples.doubleHint) as [_ Hafter].
  destruct (Hafter examples.doubleFixed s' pool' eq_refl solving_has_double Hrun 1)
    as (w & Hw & Hsolved & Hnoop).
  - assert (Hn : hint.TotalOutputs examples.doubleFixed (len (Inputs examples.doubleHint)) = 2)
      by reflexivity.
    rewrite Hn. lia.
  - assert (w = 4) by (vm_compute in Hw; congruence). subst w.
    split; [exact Hsolved|]. intros pool2. apply Hnoop.
Defined.

Lemma earlyCall_inRange : inputsInRange examples.solving examples.earlyCall.
Proof.
  intros v t Hv Ht. unfold examples.earlyCall in Hv. cbn [Inputs] in Hv.
  apply list_elem_of_singleton in Hv. subst v. cbn [terms default] in Ht.
  unfold termInRange, len.
  apply elem_of_cons in Ht. destruct Ht as [->|Ht]; [cbn; lia|].
  apply list_elem_of_singleton in Ht. subst t. cbn; lia.
Qed.

Lemma solveWithHint_evaluates_inputs_witness :
  inputsInRange examples.solving examples.earlyCall /\
  index (solved examples.solving) 3 = Ok false /\
  index (solved examples.solving) 4 = Ok false /\
  exists pool',
    @solveWithHint examples.consts examples.solving [99; 98; 97] 3 examples.earlyCall
    = Ok (examples.solving, pool', Some ErrWireNotInstantiated).
Proof.
  split; [exact earlyCall_inRange|]. split; [reflexivity|]. split; [reflexivity|].
  destruct (@solveWithHint_evaluates_inputs examples.consts examples.solving
              [99; 98; 97] 3 examples.earlyCall examples.undefinedFixed
              eq_refl earlyCall_inRange eq_refl solving_has_undefined)
    as [_ Hunresolved].
  apply Hunresolved.
  exists (Some [mkTerm 2 4 Internal; mkTerm 4 0 Virtual]), (mkTerm 2 4 Internal).
  split; [apply list_elem_of_singleton; reflexivity|].
  split; [left|].
  split; [discriminate|reflexivity].
Defined.

Lemma logStep_outside_span_witness :
  isEval examples.logStart = false /\
  Term_eqb (mkTerm 4 1 Secret) (@TermDelimitor examples.consts) = false /\
  @logStep examples.consts examples.printing examples.partly examples.logStart
    (mkTerm 4 1 Secret)
  = Ok (append (append examples.logStart "5") "8").
Proof.
  split; [reflexivity|]. split; [reflexivity|].
  destruct (@logStep_outside_span examples.consts examples.printing examples.partly
              examples.logStart (mkTerm 4 1 Secret) eq_refl eq_refl) as [_ Hwire].
  destruct (Hwire ltac:(discriminate) true 8 eq_refl (fun _ => eq_refl)) as [_ Hcoef].
  exact (Hcoef ltac:(discriminate) ltac:(discriminate) 5 eq_refl).
Defined.

(** A whole log entry: a wire with its coefficient, an unsolved wire, the
    constant minus one, and a span that evaluates [5*w1 + 5]. *)
Example logValue_example :
  @logValue examples.consts examples.printing examples.partly
    (mkLogEntry "%s*%s + %s"
       [mkTerm 4 1 Secret; mkTerm 1 2 Internal; mkTerm 3 0 Virtual;
        mkTerm (-1) (-1) Virtual; mkTerm 4 1 Secret; mkTerm 4 0 Virtual;
        mkTerm (-1) (-1) Virtual])
  = Ok "%s*%s + %s 5 8 <unsolved> -1 45"%string.
Proof. vm_compute. reflexivity. Qed.

(** The doubling hint on the wires 5 and 7 fills the wires 3 and 4. *)
Example solveWithHint_double_example :
  match @solveWithHint examples.consts examples.solving [] 3 examples.doubleHint with
  | Ok (s', _, err) =>
      (values s', solved s', nbSolved s', isValid s', err)
      = ([1; 5; 7; 10; 14], [true; true; true; true; true], 5, true, None)
  | Panic _ => False
  end.
Proof. vm_compute. reflexivity. Qed.

(** ** Further properties *)

Import inv_more.

(** *** [newSolution] *)

Lemma newSolution_hints_distinct (hs : list hint.AnnotatedFunction)
    (m : gmap Z hint.AnnotatedFunction) :
  NoDup (hint.UUID <$> hs) ->
  (forall h, h ∈ hs -> m !! hint.UUID h = None) ->
  exists m',
    newSolution_hints hs m = inl m' /\
    forall k f, m' !! k = Some f <-> m !! k = Some f \/ (f ∈ hs /\ hint.UUID f = k).
Proof.
  revert m. induction hs as [|h hs IH]; intros m Hnd Hfresh.
  - exists m. split; [reflexivity|]. intros k f. split; [auto|].
    intros [Hm|[Hin _]]; [exact Hm|]. apply elem_of_nil in Hin. contradiction.
  - rewrite fmap_cons in Hnd. apply NoDup_cons in Hnd. destruct Hnd as [Hh Hnd].
    simpl. rewrite (Hfresh h) by (left; reflexivity).
    destruct (IH (<[hint.UUID h := h]> m) Hnd) as (m' & Hrun & Hm').
    + intros g Hg. rewrite lookup_insert_ne.
      * apply Hfresh. right. exact Hg.
      * intros Heq. apply Hh. apply list_elem_of_fmap. exists g. auto.
    + exists m'. split; [exact Hrun|]. intros k f. rewrite Hm'.
      rewrite elem_of_cons. split.
      * intros [Hins|[Hin Hk]]; [|right; auto].
        destruct (decide (hint.UUID h = k)) as [<-|Hne].
        -- rewrite lookup_insert_eq in Hins. injection Hins as <-. right. auto.
        -- rewrite lookup_insert_ne in Hins by exact Hne. left. exact Hins.
      * intros [Hm|[[->|Hin] Hk]].
        -- left. rewrite lookup_insert_ne; [exact Hm|].
           intros Heq. subst k. rewrite (Hfresh h) in Hm by (left; reflexivity).
           discriminate.
        -- left. subst k. apply lookup_insert_eq.
        -- right. auto.
Qed.

Lemma newSolution_hints_duplicate (hs : list hint.AnnotatedFunction)
    (m : gmap Z hint.AnnotatedFunction) :
  ~ (NoDup (hint.UUID <$> hs) /\ forall h, h ∈ hs -> m !! hint.UUID h = None) ->
  exists id,
    newSolution_hints hs m = inr (ErrDuplicateHint id) /\ id ∈ hint.UUID <$> hs.
Proof.
  revert m. induction hs as [|h hs IH]; intros m Hbad.
  - exfalso. apply Hbad. split; [constructor|].
    intros h Hin. apply elem_of_nil in Hin. contradiction.
  - cbn [newSolution_hints]. destruct (m !! hint.UUID h) as [g|] eqn:Hm.
    + exists (hint.UUID h). split; [reflexivity|]. rewrite fmap_cons. left.
    + destruct (IH (<[hint.UUID h := h]> m)) as (id & Hrun & Hid).
      * intros [Hnd Hfresh]. apply Hbad.
        assert (Hnew : forall g, g ∈ hs -> hint.UUID g <> hint.UUID h).
        { intros g Hg Heq. specialize (Hfresh g Hg).
          rewrite Heq, lookup_insert_eq in Hfresh. discriminate. }
        split.
        -- rewrite fmap_cons. apply NoDup_cons. split; [|exact Hnd].
           intros Hin. apply list_elem_of_fmap in Hin.
           destruct Hin as (g & Heq & Hg). apply (Hnew g Hg). congruence.
        -- intros g Hg. apply elem_of_cons in Hg. destruct Hg as [->|Hg]; [exact Hm|].
           specialize (Hfresh g Hg).
           rewrite lookup_insert_ne in Hfresh; [exact Hfresh|].
           intros Heq. apply (Hnew g Hg). congruence.
      * exists id. split; [exact Hrun|]. rewrite fmap_cons. right. exact Hid.
Qed.

(** X1: with a wire count that is not negative, [newSolution] succeeds
    exactly when the identifiers of the hint functions it is given are
    pairwise distinct.  The solution then has that many wires, all zero and
    unsolved, a counter at zero, the given coefficients, and its table maps
    the identifier of each given function to it and holds nothing else; it is
    valid at once only without wires.  Otherwise the result is the zero
    solution and a duplicate error on one of the given identifiers. *)
Theorem newSolution_distinct_hints (nbWires : Z)
    (hintFunctions : list hint.AnnotatedFunction) (coefficients : list fr.Element) :
  0 <= nbWires ->
  (NoDup (hint.UUID <$> hintFunctions) ->
     exists s,
       newSolution nbWires hintFunctions coefficients = Ok (s, None) /\
       values s = replicate (Z.to_nat nbWires) fr.zero /\
       solved s = replicate (Z.to_nat nbWires) false /\
       nbSolved s = 0 /\
       cs.coefficients s = coefficients /\
       (forall k f, mHintsFunctions s !! k = Some f <->
                    f ∈ hintFunctions /\ hint.UUID f = k) /\
       isValid s = (nbWires =? 0)) /\
  (~ NoDup (hint.UUID <$> hintFunctions) ->
     exists id,
       newSolution nbWires hintFunctions coefficients
       = Ok (zeroSolution, Some (ErrDuplicateHint id)) /\
       id ∈ hint.UUID <$> hintFunctions).
Proof.
  intros Hn. unfold newSolution.
  destruct (Z.ltb_spec nbWires 0) as [|_]; [lia|].
  split.
  - intros Hnd.
    destruct (newSolution_hints_distinct hintFunctions ∅ Hnd) as (m & Hrun & Hm).
    { intros h _. apply lookup_empty. }
    rewrite Hrun. eexists. split; [reflexivity|]. simpl.
    repeat (split; [reflexivity|]). split.
    + intros k f. rewrite Hm, lookup_empty. split; [intros [?|?]; [discriminate|auto]|auto].
    + unfold isValid, len; simpl. rewrite length_replicate, Z2Nat.id by lia. reflexivity.
  - intros Hdup.
    destruct (newSolution_hints_duplicate hintFunctions ∅) as (id & Hrun & Hid).
    { intros [Hnd _]. contradiction. }
    rewrite Hrun. exists id. auto.
Qed.

Lemma newSolution_distinct_hints_witness :
  0 <= 3 /\
  exists id,
    newSolution 3 [examples.doubleFixed; examples.undefinedFixed; examples.doubleFixed]
      examples.table
    = Ok (zeroSolution, Some (ErrDuplicateHint id)).
Proof.
  split; [lia|].
  destruct (newSolution_distinct_hints 3
              [examples.doubleFixed; examples.undefinedFixed; examples.doubleFixed]
              examples.table ltac:(lia)) as [_ Hdup].
  destruct Hdup as (id & Hrun & _).
  - rewrite !fmap_cons. intros Hnd. apply NoDup_cons in Hnd.
    destruct Hnd as [Hnin _]. apply Hnin. right. left.
  - exists id. exact Hrun.
Defined.

(** *** The registry and [GetAll] *)

Lemma registered_keys (registry : gmap Z hint.AnnotatedFunction) :
  registered registry ->
  forall k f, registry !! k = Some f -> hint.UUID f = k.
Proof.
  induction 1 as [|g registry registry' _ IH Hreg]; intros k f Hk.
  - rewrite lookup_empty in Hk. discriminate.
  - unfold hint.Register in Hreg.
    destruct (registry !! hint.UUID g) eqn:Hg; [discriminate|].
    injection Hreg as <-.
    destruct (decide (hint.UUID g = k)) as [<-|Hne].
    + rewrite lookup_insert_eq in Hk. congruence.
    + rewrite lookup_insert_ne in Hk by exact Hne. apply IH. exact Hk.
Qed.

Lemma GetAll_elem (registry : gmap Z hint.AnnotatedFunction) (f : hint.AnnotatedFunction) :
  f ∈ hint.GetAll registry <-> exists k, registry !! k = Some f.
Proof.
  unfold hint.GetAll. rewrite list_elem_of_fmap. split.
  - intros ([k g] & -> & Hin). apply elem_of_map_to_list in Hin. eauto.
  - intros [k Hk]. exists (k, f). split; [reflexivity|].
    apply elem_of_map_to_list. exact Hk.
Qed.

Lemma GetAll_UUIDs (registry : gmap Z hint.AnnotatedFunction) :
  registered registry ->
  hint.UUID <$> hint.GetAll registry = (map_to_list registry).*1.
Proof.
  intros Hreg. unfold hint.GetAll. rewrite <- list_fmap_compose.
  apply Forall_fmap_ext, Forall_forall. intros [k f] Hin.
  apply elem_of_map_to_list in Hin. simpl. eapply registered_keys; eassumption.
Qed.

Lemma GetAll_NoDup (registry : gmap Z hint.AnnotatedFunction) :
  registered registry -> NoDup (hint.UUID <$> hint.GetAll registry).
Proof. intros Hreg. rewrite GetAll_UUIDs by exact Hreg. apply NoDup_fst_map_to_list. Qed.

(** X2: in a registry built from the empty one by [Register], [GetAll]
    returns exactly the functions found under their own identifier, their
    identifiers are pairwise distinct, and each successful [Register] adds
    the one function to what [GetAll] returns; of the empty registry it
    returns nothing. *)
Theorem GetAll_returns_the_registered (registry : gmap Z hint.AnnotatedFunction) :
  registered registry ->
  (forall f, f ∈ hint.GetAll registry <-> registry !! hint.UUID f = Some f) /\
  NoDup (hint.UUID <$> hint.GetAll registry) /\
  (forall g registry',
     hint.Register g registry = Ok registry' ->
     hint.GetAll registry' ≡ₚ g :: hint.GetAll registry) /\
  hint.GetAll ∅ = [].
Proof.
  intros Hreg. split; [|split; [|split]].
  - intros f. rewrite GetAll_elem. split.
    + intros [k Hk]. rewrite (registered_keys registry Hreg k f Hk). exact Hk.
    + eauto.
  - apply GetAll_NoDup. exact Hreg.
  - intros g registry' Hadd. unfold hint.Register in Hadd.
    destruct (registry !! hint.UUID g) eqn:Hg; [discriminate|].
    injection Hadd as <-. unfold hint.GetAll.
    rewrite map_to_list_insert by exact Hg. reflexivity.
  - unfold hint.GetAll. rewrite map_to_list_empty. reflexivity.
Qed.

Lemma samples_registry_registered : registered samples.registry.
Proof.
  apply (registered_add examples.undefinedFixed
           (<[hint.UUID examples.doubleFixed := examples.doubleFixed]> ∅)).
  - apply (registered_add examples.doubleFixed ∅); [constructor|].
    apply Register_absent, lookup_empty.
  - apply Register_absent. rewrite lookup_insert_ne; [apply lookup_empty|].
    rewrite UUID_doubleFixed, UUID_undefinedFixed. lia.
Qed.

Lemma GetAll_returns_the_registered_witness :
  registered samples.registry /\
  examples.doubleFixed ∈ hint.GetAll samples.registry /\
  length (hint.GetAll samples.registry) = 2%nat.
Proof.
  pose proof samples_registry_registered as Hreg.
  split; [exact Hreg|].
  destruct (GetAll_returns_the_registered samples.registry Hreg) as (Hin & _ & _ & _).
  split.
  - apply Hin. unfold samples.registry. rewrite lookup_insert_ne.
    + apply lookup_insert_eq.
    + rewrite UUID_doubleFixed, UUID_undefinedFixed. lia.
  - unfold hint.GetAll, samples.registry. rewrite length_fmap.
    rewrite length_map_to_list.
    rewrite map_size_insert_None, map_size_insert_None, map_size_empty;
      [reflexivity|apply lookup_empty|].
    rewrite lookup_insert_ne; [apply lookup_empty|].
    rewrite UUID_doubleFixed, UUID_undefinedFixed. lia.
Defined.

(** *** Prover options *)

Lemma applyOptions_builtin (bs : list builtin) (opt : backend.ProverOption) :
  backend.applyOptions (builtinOption <$> bs) opt
  = ({| backend.Force := backend.Force opt || asksForce bs;
        backend.HintFunctions := backend.HintFunctions opt ++ askedHints bs;
        backend.LoggerOut := askedOutput bs (backend.LoggerOut opt) |}, None).
Proof.
  revert opt. induction bs as [|b bs IH]; intros opt.
  - destruct opt as [force hs w]. simpl. unfold asksForce, askedHints, askedOutput; simpl.
    rewrite orb_false_r, app_nil_r. reflexivity.
  - rewrite fmap_cons. cbn [backend.applyOptions].
    destruct b as [|hs|w]; simpl; rewrite IH; simpl;
      unfold asksForce, askedHints, askedOutput; simpl.
    + rewrite orb_true_r. reflexivity.
    + rewrite app_assoc. reflexivity.
    + reflexivity.
Qed.

Lemma applyOptions_app (opts opts' : list backend.Option) (opt : backend.ProverOption) :
  backend.applyOptions (opts ++ opts') opt
  = match backend.applyOptions opts opt with
    | (opt', None) => backend.applyOptions opts' opt'
    | (opt', Some e) => (opt', Some e)
    end.
Proof.
  revert opt. induction opts as [|o opts IH]; intros opt; simpl; [reflexivity|].
  destruct (o opt) as [opt1 [e|]]; [reflexivity|]. apply IH.
Qed.

(** X4: over any list of the package's own options ([IgnoreSolverError],
    [WithHints], [WithOutput]), in any order and number, [NewProverOption]
    succeeds; [Force] is set exactly when [IgnoreSolverError] occurs, the
    hint functions are those of the registry followed by the arguments of
    the [WithHints], in order, and the writer is that of the last
    [WithOutput], standard output without one. *)
Theorem NewProverOption_builtin (registry : gmap Z hint.AnnotatedFunction)
    (bs : list builtin) :
  backend.NewProverOption registry (builtinOption <$> bs)
  = ({| backend.Force := asksForce bs;
        backend.HintFunctions := hint.GetAll registry ++ askedHints bs;
        backend.LoggerOut := askedOutput bs (Some os.Stdout) |}, None).
Proof. unfold backend.NewProverOption. rewrite applyOptions_builtin. reflexivity. Qed.

(** X5: when an option returns an error, [NewProverOption] returns the zero
    value and that error: what the options before it had set is dropped, and
    the options after it are not run. *)
Theorem NewProverOption_failing_option (registry : gmap Z hint.AnnotatedFunction)
    (bs : list builtin) (option : backend.Option) (opts : list backend.Option)
    (e : error) :
  (forall opt, (option opt).2 = Some e) ->
  backend.NewProverOption registry ((builtinOption <$> bs) ++ option :: opts)
  = (backend.zeroProverOption, Some e).
Proof.
  intros Hfail. unfold backend.NewProverOption.
  rewrite applyOptions_app, applyOptions_builtin. cbn [backend.applyOptions].
  match goal with |- context [option ?o] =>
    specialize (Hfail o); destruct (option o) as [opt' err] end.
  simpl in Hfail. subst err. reflexivity.
Qed.

Lemma NewProverOption_failing_option_witness :
  (forall opt, (samples.refusing opt).2 = Some (ErrHint "refused")) /\
  backend.NewProverOption samples.registry
    [backend.IgnoreSolverError; samples.refusing; backend.WithOutput None]
  = (backend.zeroProverOption, Some (ErrHint "refused")).
Proof.
  split; [intros opt; reflexivity|].
  exact (NewProverOption_failing_option samples.registry [BIgnoreSolverError]
           samples.refusing [backend.WithOutput None] (ErrHint "refused")
           (fun opt => eq_refl)).
Defined.

Lemma newSolution_hints_app (hs hs' : list hint.AnnotatedFunction)
    (m : gmap Z hint.AnnotatedFunction) :
  newSolution_hints (hs ++ hs') m
  = match newSolution_hints hs m with
    | inl m' => newSolution_hints hs' m'
    | inr e => inr e
    end.
Proof.
  revert m. induction hs as [|h hs IH]; intros m; simpl; [reflexivity|].
  destruct (m !! hint.UUID h); [reflexivity|]. apply IH.
Qed.

(** X3: with a registry built by [Register], the hint functions of the
    default prover options always make a solution ([newSolution] finds no
    duplicate, and every registered function is in the solution's table);
    adding through [WithHints] a function whose identifier is registered
    makes [newSolution] fail with the duplicate error on that identifier. *)
Theorem registry_hints_make_a_solution (registry : gmap Z hint.AnnotatedFunction)
    (nbWires : Z) (coefficients : list fr.Element) :
  registered registry ->
  0 <= nbWires ->
  (exists s,
     newSolution nbWires
       (backend.HintFunctions (backend.NewProverOption registry []).1) coefficients
     = Ok (s, None) /\
     forall k f, mHintsFunctions s !! k = Some f <-> registry !! k = Some f) /\
  (forall f, is_Some (registry !! hint.UUID f) ->
     newSolution nbWires
       (backend.HintFunctions
          (backend.NewProverOption registry [backend.WithHints [f]]).1) coefficients
     = Ok (zeroSolution, Some (ErrDuplicateHint (hint.UUID f)))).
Proof.
  intros Hreg Hn. pose proof (GetAll_NoDup registry Hreg) as Hnd.
  destruct (newSolution_hints_distinct (hint.GetAll registry) ∅ Hnd)
    as (m & Hrun & Hm).
  { intros h _. apply lookup_empty. }
  assert (Hsame : forall k f, m !! k = Some f <-> registry !! k = Some f).
  { intros k f. rewrite Hm, lookup_empty, GetAll_elem. split.
    - intros [?|[[k' Hk'] Hk]]; [discriminate|].
      pose proof (registered_keys registry Hreg k' f Hk'). congruence.
    - intros Hk. right. split; [eauto|]. eapply registered_keys; eassumption. }
  unfold newSolution. destruct (Z.ltb_spec nbWires 0) as [|_]; [lia|].
  split.
  - cbn [backend.NewProverOption backend.applyOptions fst backend.HintFunctions].
    rewrite Hrun. eexists. split; [reflexivity|]. exact Hsame.
  - intros f [g Hg].
    cbn [backend.NewProverOption backend.applyOptions backend.WithHints fst
         backend.HintFunctions].
    rewrite newSolution_hints_app, Hrun. cbn [newSolution_hints].
    pose proof (proj2 (Hsame _ _) Hg) as Hmf.
    destruct (m !! hint.UUID f) eqn:E; [reflexivity|].
    unfold hint.ID in *. congruence.
Qed.

Lemma registry_hints_make_a_solution_witness :
  registered samples.registry /\
  0 <= 5 /\
  newSolution 5
    (backend.HintFunctions
       (backend.NewProverOption samples.registry
          [backend.WithHints [examples.doubleFixed]]).1) examples.table
  = Ok (zeroSolution, Some (ErrDuplicateHint (hint.UUID examples.doubleFixed))).
Proof.
  pose proof samples_registry_registered as Hreg.
  split; [exact Hreg|]. split; [lia|].
  destruct (registry_hints_make_a_solution samples.registry 5 examples.table Hreg
              ltac:(lia)) as [_ Hdup].
  apply Hdup. exists examples.doubleFixed. unfold samples.registry.
  rewrite lookup_insert_ne.
  - apply lookup_insert_eq.
  - rewrite UUID_doubleFixed, UUID_undefinedFixed. lia.
Defined.

(** X6: the name of a proving scheme is "unknown" exactly for the
    identifiers that [Implemented] does not list, and the implemented
    schemes have different names. *)
Theorem ID_String_known_iff_implemented (id id' : backend.ID) :
  (backend.ID_String id <> "unknown"%string <-> id ∈ backend.Implemented) /\
  (id ∈ backend.Implemented -> id' ∈ backend.Implemented ->
   backend.ID_String id = backend.ID_String id' -> id = id').
Proof.
  unfold backend.Implemented, backend.ID_String, backend.GROTH16, backend.PLONK.
  rewrite !elem_of_cons, !elem_of_nil. split.
  - destruct (Z.eqb_spec id 1); [split; [auto|discriminate]|].
    destruct (Z.eqb_spec id 2); [split; [auto|discriminate]|].
    split; [congruence|]. intros [?|[?|[]]]; contradiction.
  - intros [->|[->|[]]] [->|[->|[]]]; simpl; intros Heq;
      try reflexivity; discriminate.
Qed.

(** *** [solveWithHint]: what it keeps *)

Lemma set_frame (s s' : solution) (id : Z) (value : fr.Element) :
  set s id value = Ok s' ->
  coefficients s' = coefficients s /\
  mHintsFunctions s' = mHintsFunctions s /\
  length (values s') = length (values s) /\
  length (solved s') = length (solved s) /\
  forall x, index (solved s) x = Ok true ->
    index (solved s') x = Ok true /\ index (values s') x = index (values s) x.
Proof.
  intros Hset. apply set_Ok_inv in Hset. destruct Hset as (Hid & Hr1 & Hr2 & ->).
  simpl. rewrite !length_insert. repeat split; try reflexivity;
    (rewrite index_insert_other; [auto|lia|intros ->; congruence]).
Qed.

Lemma setOutputs_frame (wires outputs : list Z) (s s' : solution) (i : Z) :
  setOutputs s wires outputs i = Ok s' ->
  coefficients s' = coefficients s /\
  mHintsFunctions s' = mHintsFunctions s /\
  length (values s') = length (values s) /\
  length (solved s') = length (solved s) /\
  forall x, index (solved s) x = Ok true ->
    index (solved s') x = Ok true /\ index (values s') x = index (values s) x.
Proof.
  revert s i. induction outputs as [|o outputs IH]; intros s i Hrun; simpl in Hrun.
  - injection Hrun as <-. repeat split; auto.
  - destruct (index wires i) as [w|]; simpl in Hrun; [|discriminate].
    destruct (set s w (fr.SetBigInt o)) as [s1|] eqn:Hset; simpl in Hrun; [|discriminate].
    destruct (set_frame _ _ _ _ Hset) as (Hc1 & Hm1 & Hv1 & Hs1 & Hk1).
    destruct (IH _ _ Hrun) as (Hc & Hm & Hv & Hs & Hk).
    repeat split; try congruence.
    + apply Hk, Hk1. assumption.
    + destruct (Hk1 x H) as [Hx1 Hx2]. destruct (Hk x Hx1) as [_ Hx3]. congruence.
Qed.

Lemma solveWithHint_cases `{C : Consts} (s s' : solution) (pool pool' : bigIntPool)
    (wireID : Z) (h : Hint) (err : option error) :
  solveWithHint s pool wireID h = Ok (s', pool', err) ->
  s' = s \/
  exists f inputs lambda pool1,
    index (solved s) wireID = Ok false /\
    mHintsFunctions s !! ID h = Some f /\
    length inputs = length (Inputs h) /\
    callHint s pool1 f h inputs lambda = Ok (s', pool', err).
Proof.
  unfold solveWithHint.
  destruct (index (solved s) wireID) as [[|]|] eqn:Hw; simpl; try discriminate.
  - intros [= <- <- <-]. left. reflexivity.
  - destruct (mHintsFunctions s !! ID h) as [f|] eqn:Hf.
    + destruct (GetN (length (Inputs h)) pool) as [junk pool1].
      destruct (Get pool1) as [lambda pool2].
      destruct (evalInputs s (Inputs h) lambda) as [[[inputs lam] ok]|] eqn:Hin;
        simpl; [|discriminate].
      destruct ok; simpl.
      * intros Hcall. right. exists f, inputs, lam, pool2.
        repeat split; auto. eapply evalInputs_length. exact Hin.
      * intros [= <- <- <-]. left. reflexivity.
    + intros [= <- <- <-]. left. reflexivity.
Qed.

(** X7: whatever [solveWithHint] returns, it has only added to the
    solution: the coefficient table, the hint functions and the number of
    wires are the same, and every wire that was solved is still solved, with
    the same value. *)
Theorem solveWithHint_only_adds `{C : Consts} (s s' : solution)
    (pool pool' : bigIntPool) (wireID : Z) (h : Hint) (err : option error) :
  solveWithHint s pool wireID h = Ok (s', pool', err) ->
  coefficients s' = coefficients s /\
  mHintsFunctions s' = mHintsFunctions s /\
  length (values s') = length (values s) /\
  length (solved s') = length (solved s) /\
  forall x, index (solved s) x = Ok true ->
    index (solved s') x = Ok true /\ index (values s') x = index (values s) x.
Proof.
  intros Hrun. apply solveWithHint_cases in Hrun.
  destruct Hrun as [->|(f & inputs & lambda & pool1 & _ & _ & _ & Hcall)].
  - repeat split; auto.
  - apply callHint_Ok_inv in Hcall. destruct Hcall as (outputs & _ & Hset).
    eapply setOutputs_frame. exact Hset.
Qed.

Lemma solveWithHint_double_run :
  exists s' pool',
    @solveWithHint examples.consts examples.solving [] 3 examples.doubleHint
    = Ok (s', pool', None).
Proof. vm_compute. eexists _, _. reflexivity. Qed.

Lemma solveWithHint_only_adds_witness :
  exists s' pool',
    @solveWithHint examples.consts examples.solving [] 3 examples.doubleHint
    = Ok (s', pool', None) /\
    index (values s') 2 = Ok 7 /\ length (values s') = 5%nat.
Proof.
  destruct solveWithHint_double_run as (s' & pool' & Hrun).
  exists s', pool'. split; [exact Hrun|].
  destruct (@solveWithHint_only_adds examples.consts _ _ _ _ _ _ _ Hrun)
    as (_ & _ & Hlen & _ & Hkeep).
  split; [|exact Hlen].
  destruct (Hkeep 2 eq_refl) as [_ Hval]. rewrite Hval. reflexivity.
Defined.

Lemma setOutputs_wellFormed (wires outputs : list Z) (s s' : solution) (i : Z) :
  wellFormed s ->
  setOutputs s wires outputs i = Ok s' ->
  wellFormed s' /\ nbSolved s' = nbSolved s + len outputs.
Proof.
  revert s i. induction outputs as [|o outputs IH]; intros s i Hwf Hrun; simpl in Hrun.
  - injection Hrun as <-. unfold len; simpl. split; [exact Hwf|lia].
  - destruct (index wires i) as [w|]; simpl in Hrun; [|discriminate].
    destruct (set s w (fr.SetBigInt o)) as [s1|] eqn:Hset; simpl in Hrun; [|discriminate].
    pose proof (set_wellFormed _ _ _ _ Hwf Hset) as Hwf1.
    pose proof (set_Ok_inv _ _ _ _ Hset) as (Hid & _ & _ & _).
    rewrite (set_unsolved s w _ Hwf Hid) in Hset. injection Hset as <-.
    destruct (IH _ _ Hwf1 Hrun) as [Hwf' Hnb]. split; [exact Hwf'|].
    rewrite Hnb. unfold len; simpl length. simpl nbSolved. lia.
Qed.

(** X8: [solveWithHint] keeps the solution well formed (parallel arrays,
    a counter that counts the solved markers), and the counter never goes
    down: it grows by the number of outputs of the hint when the hint is
    called, and stays otherwise. *)
Theorem solveWithHint_keeps_wellFormed `{C : Consts} (s s' : solution)
    (pool pool' : bigIntPool) (wireID : Z) (h : Hint) (err : option error) :
  wellFormed s ->
  solveWithHint s pool wireID h = Ok (s', pool', err) ->
  wellFormed s' /\
  (nbSolved s' = nbSolved s \/
   exists f, mHintsFunctions s !! ID h = Some f /\
     0 < hint.TotalOutputs f (len (Inputs h)) /\
     nbSolved s' = nbSolved s + hint.TotalOutputs f (len (Inputs h))).
Proof.
  intros Hwf Hrun. apply solveWithHint_cases in Hrun.
  destruct Hrun as [->|(f & inputs & lambda & pool1 & _ & Hf & Hlen & Hcall)].
  - auto.
  - assert (Hpos : 0 < hint.TotalOutputs f (len inputs)).
    { unfold callHint in Hcall.
      destruct (Z.ltb_spec (hint.TotalOutputs f (len inputs)) 0); [discriminate|].
      destruct (Z.eqb_spec (hint.TotalOutputs f (len inputs)) 0); [discriminate|lia]. }
    apply callHint_Ok_inv in Hcall. destruct Hcall as (outputs & Hout & Hset).
    destruct (setOutputs_wellFormed _ _ _ _ _ Hwf Hset) as [Hwf' Hnb].
    split; [exact Hwf'|]. right. exists f.
    assert (Hl : len inputs = len (Inputs h)) by (unfold len; lia).
    rewrite <- Hl, <- Hout. auto with zarith.
Qed.

Lemma solveWithHint_keeps_wellFormed_witness :
  wellFormed examples.solving /\
  exists s' pool',
    @solveWithHint examples.consts examples.solving [] 3 examples.doubleHint
    = Ok (s', pool', None) /\
    wellFormed s'.
Proof.
  split; [exact solving_wellFormed|].
  destruct solveWithHint_double_run as (s' & pool' & Hrun).
  exists s', pool'. split; [exact Hrun|].
  exact (proj1 (@solveWithHint_keeps_wellFormed examples.consts _ _ _ _ _ _ _
                  solving_wellFormed Hrun)).
Defined.

(** *** Canonical field elements *)

Lemma SetBigInt_canonical (v : Z) : fr.canonical (fr.SetBigInt v).
Proof.
  unfold fr.canonical, fr.SetBigInt. apply Z.mod_pos_bound.
  pose proof Modulus_pos. lia.
Qed.

Lemma setOutputs_canonical (wires outputs : list Z) (s s' : solution) (i : Z) :
  canonicalValues s -> setOutputs s wires outputs i = Ok s' -> canonicalValues s'.
Proof.
  unfold canonicalValues.
  revert s i. induction outputs as [|o outputs IH]; intros s i Hcan Hrun; simpl in Hrun.
  - injection Hrun as <-. exact Hcan.
  - destruct (index wires i) as [w|]; simpl in Hrun; [|discriminate].
    destruct (set s w (fr.SetBigInt o)) as [s1|] eqn:Hset; simpl in Hrun; [|discriminate].
    refine (IH _ _ _ Hrun).
    apply set_Ok_inv in Hset. destruct Hset as (_ & _ & _ & ->). simpl.
    apply Forall_insert; [exact Hcan|apply SetBigInt_canonical].
Qed.

(** X9: if every value of the solution is a canonical field element (in
    [0, Modulus)), so is every value after [solveWithHint]: what a hint
    leaves in its output buffers, of whatever size or sign, is reduced before
    it is stored. *)
Theorem solveWithHint_keeps_canonical `{C : Consts} (s s' : solution)
    (pool pool' : bigIntPool) (wireID : Z) (h : Hint) (err : option error) :
  canonicalValues s ->
  solveWithHint s pool wireID h = Ok (s', pool', err) ->
  canonicalValues s'.
Proof.
  intros Hcan Hrun. apply solveWithHint_cases in Hrun.
  destruct Hrun as [->|(f & inputs & lambda & pool1 & _ & _ & _ & Hcall)];
    [exact Hcan|].
  apply callHint_Ok_inv in Hcall. destruct Hcall as (outputs & _ & Hset).
  eapply setOutputs_canonical; eassumption.
Qed.

Lemma solving_canonical : canonicalValues examples.solving.
Proof.
  unfold canonicalValues, examples.solving; cbn [values].
  repeat constructor; unfold fr.Modulus; lia.
Qed.

Lemma solveWithHint_keeps_canonical_witness :
  canonicalValues examples.solving /\
  exists s' pool',
    @solveWithHint examples.consts examples.solving [] 3 examples.doubleHint
    = Ok (s', pool', None) /\
    canonicalValues s'.
Proof.
  split; [exact solving_canonical|].
  destruct solveWithHint_double_run as (s' & pool' & Hrun).
  exists s', pool'. split; [exact Hrun|].
  exact (@solveWithHint_keeps_canonical examples.consts _ _ _ _ _ _ _
           solving_canonical Hrun).
Defined.

Lemma index_Forall {A : Type} (P : A -> Prop) (l : list A) (i : Z) (a : A) :
  Forall P l -> index l i = Ok a -> P a.
Proof.
  intros Hall Hi. apply index_Ok in Hi. destruct Hi as [_ Hi].
  rewrite Forall_forall in Hall. apply Hall.
  apply list_elem_of_lookup. eauto.
Qed.

(** X10: over canonical wire values, whatever [computeTerm] returns is a
    canonical field element. *)
Theorem computeTerm_canonical `{C : Consts} (s : solution) (t : Term) (r : fr.Element) :
  canonicalValues s -> computeTerm s t = Ok r -> fr.canonical r.
Proof.
  unfold canonicalValues. intros Hcan. unfold computeTerm, Unpack.
  pose proof Modulus_pos as Hq.
  destruct (if negb (cID t =? 0)
            then let* b := index (solved s) (vID t) in Ok (negb b)
            else Ok false) as [[|]|]; simpl; try discriminate.
  destruct (cID t =? CoeffIdZero).
  { intros [= <-]. unfold fr.canonical, fr.zero. lia. }
  destruct (cID t =? CoeffIdOne).
  { intros Hv. eapply index_Forall; eassumption. }
  destruct (cID t =? CoeffIdTwo).
  { destruct (index (values s) (vID t)); simpl; [|discriminate].
    intros [= <-]. unfold fr.canonical, fr.Double. apply Z.mod_pos_bound. lia. }
  destruct (cID t =? CoeffIdMinusOne).
  { destruct (index (values s) (vID t)) as [v|] eqn:Hv; simpl; [|discriminate].
    intros [= <-]. pose proof (index_Forall _ _ _ _ Hcan Hv) as Hc.
    unfold fr.canonical, fr.Neg in *. destruct (Z.eqb_spec v 0); lia. }
  destruct (index (coefficients s) (cID t)); simpl; [|discriminate].
  destruct (index (values s) (vID t)); simpl; [|discriminate].
  intros [= <-]. unfold fr.canonical, fr.Mul. apply Z.mod_pos_bound. lia.
Qed.

Lemma computeTerm_canonical_witness :
  canonicalValues examples.solving /\
  @computeTerm examples.consts examples.solving (mkTerm 3 2 Secret)
  = Ok (fr.Modulus - 7) /\
  fr.canonical (fr.Modulus - 7).
Proof.
  split; [exact solving_canonical|]. split; [reflexivity|].
  exact (@computeTerm_canonical examples.consts examples.solving
           (mkTerm 3 2 Secret) (fr.Modulus - 7) solving_canonical eq_refl).
Defined.

(** X11: when the coefficient table holds the literals 0, 1, 2 and -1 at
    the reserved identifiers, [computeTerm] on a solved wire with a canonical
    value is, for every coefficient in the table, the product of the table's
    entry and the wire's value: the special cases change the cost, not the
    result. *)
Theorem computeTerm_is_table_product `{C : Consts} (s : solution) (t : Term)
    (c v : fr.Element) :
  index (coefficients s) CoeffIdZero = Ok fr.zero ->
  index (coefficients s) CoeffIdOne = Ok fr.one ->
  index (coefficients s) CoeffIdTwo = Ok fr.two ->
  index (coefficients s) CoeffIdMinusOne = Ok fr.minusOne ->
  index (solved s) (vID t) = Ok true ->
  index (values s) (vID t) = Ok v ->
  fr.canonical v ->
  index (coefficients s) (cID t) = Ok c ->
  computeTerm s t = Ok (fr.Mul c v).
Proof.
  intros H0 H1 H2 H3 Hsolved Hval Hcan Hc.
  unfold computeTerm, Unpack. rewrite Hsolved, Hval, Hc.
  destruct (negb (cID t =? 0)); simpl.
  all: destruct (Z.eqb_spec (cID t) CoeffIdZero) as [E|_];
    [rewrite E, H0 in Hc; injection Hc as <-; rewrite Mul_zero; reflexivity|].
  all: destruct (Z.eqb_spec (cID t) CoeffIdOne) as [E|_];
    [rewrite E, H1 in Hc; injection Hc as <-; rewrite Mul_one by exact Hcan;
     reflexivity|].
  all: destruct (Z.eqb_spec (cID t) CoeffIdTwo) as [E|_];
    [rewrite E, H2 in Hc; injection Hc as <-; rewrite Mul_two; reflexivity|].
  all: destruct (Z.eqb_spec (cID t) CoeffIdMinusOne) as [E|_];
    [rewrite E, H3 in Hc; injection Hc as <-; rewrite Mul_minusOne by exact Hcan;
     reflexivity|].
  all: reflexivity.
Qed.

Lemma computeTerm_is_table_product_witness :
  index (coefficients examples.solving) 3 = Ok fr.minusOne /\
  @computeTerm examples.consts examples.solving (mkTerm 3 2 Secret)
  = Ok (fr.Mul fr.minusOne 7).
Proof.
  split; [reflexivity|].
  apply (@computeTerm_is_table_product examples.consts examples.solving
           (mkTerm 3 2 Secret) fr.minusOne 7); try reflexivity.
  unfold fr.canonical, fr.Modulus. lia.
Defined.

(** *** [solveWithHint]: from the inputs to the output wires *)

Lemma callHint_assigns `{C : Consts} (s : solution) (pool1 : bigIntPool)
    (f : hint.AnnotatedFunction) (h : Hint) (inputs : list Z) (lambda n : Z)
    (outputs ws res : list Z) (err : option error) :
  n = hint.TotalOutputs f (len inputs) ->
  0 < n ->
  outputs = lambda :: (GetN (Z.to_nat n - 1) pool1).1 ->
  hint.Call f ecc.BLS12_381 (map (fun x => x mod fr.Modulus) inputs) outputs
  = Ok (res, err) ->
  wellFormed s ->
  ws = take (Z.to_nat n) (Wires h) ->
  length ws = Z.to_nat n ->
  NoDup ws ->
  (forall w, w ∈ ws -> index (solved s) w = Ok false) ->
  exists s' pool',
    callHint s pool1 f h inputs lambda = Ok (s', pool', err) /\
    nbSolved s' = nbSolved s + n /\
    (forall (k : nat) w o,
       ws !! k = Some w -> writeBack outputs res !! k = Some o ->
       index (values s') w = Ok (fr.SetBigInt o) /\ index (solved s') w = Ok true) /\
    (forall x, x ∉ ws ->
       index (values s') x = index (values s) x /\
       index (solved s') x = index (solved s) x).
Proof.
  intros Hn Hpos Hout Hcall Hwf Hws Hlen Hnd Hun.
  unfold callHint. rewrite <- Hn.
  destruct (Z.ltb_spec n 0); [lia|].
  destruct (Z.eqb_spec n 0); [lia|].
  pose proof (GetN_length (Z.to_nat n - 1) pool1) as Hothers.
  destruct (GetN (Z.to_nat n - 1) pool1) as [others pool2]. simpl in Hout, Hothers.
  rewrite <- Hout, Hcall. simpl.
  destruct (setOutputs_assigns (Wires h) ws (writeBack outputs res) s 0 Hwf)
    as (s' & Hrun & _ & Hnb & Hset & Hother).
  - rewrite writeBack_length, Hout. simpl. lia.
  - intros k w Hk. rewrite Hws in Hk. apply lookup_take_Some in Hk.
    simpl. tauto.
  - exact Hnd.
  - exact Hun.
  - change (Z.of_nat 0) with 0 in Hrun. rewrite Hrun. simpl.
    eexists _, _. split; [reflexivity|].
    split; [|split; assumption].
    rewrite Hnb. unfold len. rewrite writeBack_length, Hout. simpl. lia.
Qed.

Lemma writeBack_full (old new : list Z) :
  length new = length old -> writeBack old new = new.
Proof.
  revert new. induction old as [|o old IH]; intros [|n new] Hlen;
    simpl in *; try discriminate; [reflexivity|].
  f_equal. apply IH. lia.
Qed.

Lemma linearValues_unique `{C : Consts} (s : solution) (ins : list Variable_)
    (vals vals' : list Z) :
  Forall2 (fun v x => linearValue s (terms v) = Ok x) ins vals ->
  Forall2 (fun v x => linearValue s (terms v) = Ok x) ins vals' ->
  vals = vals'.
Proof.
  intros H1. revert vals'. induction H1 as [|v x ins vals Hx _ IH]; intros vals' H2.
  - inversion H2. reflexivity.
  - inversion H2 as [|v' x' ins' vals2 Hx' Hrest]; subst.
    f_equal; [congruence|]. apply IH. exact Hrest.
Qed.

Lemma solveWithHint_reaches_call `{C : Consts} (s : solution) (pool : bigIntPool)
    (wireID : Z) (h : Hint) (f : hint.AnnotatedFunction) (vals : list Z) :
  length (values s) = length (solved s) ->
  inputsInRange s h ->
  (forall v t, v ∈ Inputs h -> t ∈ terms v -> resolved s t) ->
  index (solved s) wireID = Ok false ->
  mHintsFunctions s !! ID h = Some f ->
  Forall2 (fun v x => linearValue s (terms v) = Ok x) (Inputs h) vals ->
  exists lambda pool1,
    solveWithHint s pool wireID h = callHint s pool1 f h vals lambda.
Proof.
  intros Hlen Hrange Hres Hw Hf Hvals.
  apply inputsInRange_Forall in Hrange.
  unfold solveWithHint. rewrite Hw, Hf. simpl.
  destruct (GetN (length (Inputs h)) pool) as [junk pool1].
  destruct (Get pool1) as [lambda pool2].
  assert (Hall : Forall (fun v => Forall (resolved s) (terms v)) (Inputs h)).
  { apply Forall_forall. intros v Hin. apply Forall_forall. intros t Ht.
    exact (Hres v t Hin Ht). }
  destruct (evalInputs_resolved s (Inputs h) lambda Hlen Hrange Hall)
    as (vals' & lam & Hvals' & Hrun).
  rewrite (linearValues_unique s _ _ _ Hvals Hvals'), Hrun. simpl. eauto.
Qed.

(** X12: the whole of a successful resolution.  On a well-formed solution,
    for a hint whose inputs are in range and resolved and whose function,
    given the inputs' values reduced modulo the field's modulus, fills its
    outputs with [res] and returns [nil]: [solveWithHint] returns [nil], every
    output wire holds the field element of its entry of [res] and is solved,
    the counter has grown by the number of outputs, and no other wire has
    changed. *)
Theorem solveWithHint_sets_outputs `{C : Consts} (s : solution) (pool : bigIntPool)
    (wireID : Z) (h : Hint) (f : hint.AnnotatedFunction) (vals res ws : list Z)
    (n : Z) :
  wellFormed s ->
  inputsInRange s h ->
  (forall v t, v ∈ Inputs h -> t ∈ terms v -> resolved s t) ->
  index (solved s) wireID = Ok false ->
  mHintsFunctions s !! ID h = Some f ->
  Forall2 (fun v x => linearValue s (terms v) = Ok x) (Inputs h) vals ->
  n = hint.TotalOutputs f (len (Inputs h)) ->
  0 < n ->
  (forall outs, length outs = Z.to_nat n ->
     hint.Call f ecc.BLS12_381 (map (fun x => x mod fr.Modulus) vals) outs
     = Ok (res, None)) ->
  length res = Z.to_nat n ->
  ws = take (Z.to_nat n) (Wires h) ->
  length ws = Z.to_nat n ->
  NoDup ws ->
  (forall w, w ∈ ws -> index (solved s) w = Ok false) ->
  exists s' pool',
    solveWithHint s pool wireID h = Ok (s', pool', None) /\
    nbSolved s' = nbSolved s + n /\
    (forall (k : nat) w o,
       ws !! k = Some w -> res !! k = Some o ->
       index (values s') w = Ok (fr.SetBigInt o) /\ index (solved s') w = Ok true) /\
    (forall x, x ∉ ws ->
       index (values s') x = index (values s) x /\
       index (solved s') x = index (solved s) x).
Proof.
  intros Hwf Hrange Hres Hw Hf Hvals Hn Hpos Hcall Hlres Hws Hlen Hnd Hun.
  destruct (solveWithHint_reaches_call s pool wireID h f vals (proj1 Hwf)
              Hrange Hres Hw Hf Hvals) as (lambda & pool1 & Hreach).
  assert (Hl : len vals = len (Inputs h)).
  { unfold len. f_equal. symmetry. eapply Forall2_length. exact Hvals. }
  set (outputs := lambda :: (GetN (Z.to_nat n - 1) pool1).1).
  assert (Hlout : length outputs = Z.to_nat n).
  { unfold outputs. simpl. rewrite GetN_length. lia. }
  destruct (callHint_assigns s pool1 f h vals lambda n outputs ws res None)
    as (s' & pool' & Hrun & Hnb & Hset & Hother); auto.
  - rewrite Hl. exact Hn.
  - exists s', pool'. rewrite Hreach. split; [exact Hrun|]. split; [exact Hnb|].
    split; [|exact Hother].
    rewrite writeBack_full in Hset by lia. exact Hset.
Qed.

Lemma doubleHint_inRange : inputsInRange examples.solving examples.doubleHint.
Proof.
  intros v t Hv Ht. unfold examples.doubleHint in Hv. cbn [Inputs] in Hv.
  unfold termInRange, len.
  apply elem_of_cons in Hv. destruct Hv as [->|Hv].
  - apply list_elem_of_singleton in Ht. subst t. cbn; lia.
  - apply list_elem_of_singleton in Hv. subst v.
    apply list_elem_of_singleton in Ht. subst t. cbn; lia.
Qed.

Lemma doubleHint_resolved :
  forall v t, v ∈ Inputs examples.doubleHint -> t ∈ terms v ->
    resolved examples.solving t.
Proof.
  intros v t Hv Ht. unfold examples.doubleHint in Hv. cbn [Inputs] in Hv.
  apply elem_of_cons in Hv. destruct Hv as [->|Hv].
  - apply list_elem_of_singleton in Ht. subst t. right. reflexivity.
  - apply list_elem_of_singleton in Hv. subst v.
    apply list_elem_of_singleton in Ht. subst t. right. reflexivity.
Qed.

Lemma solveWithHint_sets_outputs_witness :
  wellFormed examples.solving /\
  exists s' pool',
    @solveWithHint examples.consts examples.solving [99] 3 examples.doubleHint
    = Ok (s', pool', None) /\
    nbSolved s' = 5 /\
    index (values s') 3 = Ok 10 /\ index (values s') 4 = Ok 14.
Proof.
  split; [exact solving_wellFormed|].
  destruct (@solveWithHint_sets_outputs examples.consts examples.solving [99] 3
              examples.doubleHint examples.doubleFixed [5; 7] [10; 14] [3; 4] 2)
    as (s' & pool' & Hrun & Hnb & Hset & _).
  - exact solving_wellFormed.
  - exact doubleHint_inRange.
  - exact doubleHint_resolved.
  - reflexivity.
  - exact solving_has_double.
  - repeat constructor.
  - reflexivity.
  - lia.
  - intros [|a [|b [|c outs]]] Hlen; try discriminate. reflexivity.
  - reflexivity.
  - reflexivity.
  - reflexivity.
  - repeat constructor; rewrite ?elem_of_cons, ?elem_of_nil; lia.
  - intros w Hw. apply elem_of_cons in Hw. destruct Hw as [->|Hw]; [reflexivity|].
    apply list_elem_of_singleton in Hw. subst w. reflexivity.
  - exists s', pool'. split; [exact Hrun|]. split; [exact Hnb|].
    split.
    + exact (proj1 (Hset 0%nat 3 10 eq_refl eq_refl)).
    + exact (proj1 (Hset 1%nat 4 14 eq_refl eq_refl)).
Defined.

(** X13: a hint descriptor whose number of inputs is not the input arity
    its fixed-arity function declares makes [solveWithHint] return the arity
    error that names both numbers, whatever the wrapped function is; the
    output wires are set all the same, so the counter has grown by the
    output arity. *)
Theorem solveWithHint_arity_mismatch `{C : Consts} (s : solution) (pool : bigIntPool)
    (wireID : Z) (h : Hint) (fn : hint.Function) (nIn nOut : Z)
    (ws : list Z) :
  wellFormed s ->
  inputsInRange s h ->
  (forall v t, v ∈ Inputs h -> t ∈ terms v -> resolved s t) ->
  index (solved s) wireID = Ok false ->
  mHintsFunctions s !! ID h = Some (hint.NewFixedHint fn nIn nOut) ->
  len (Inputs h) <> nIn ->
  0 < nOut ->
  ws = take (Z.to_nat nOut) (Wires h) ->
  length ws = Z.to_nat nOut ->
  NoDup ws ->
  (forall w, w ∈ ws -> index (solved s) w = Ok false) ->
  exists s' pool',
    solveWithHint s pool wireID h
    = Ok (s', pool', Some (ErrInputArity (len (Inputs h)) nIn)) /\
    nbSolved s' = nbSolved s + nOut /\
    forall w, w ∈ ws -> index (solved s') w = Ok true.
Proof.
  intros Hwf Hrange Hres Hw Hf Hne Hpos Hws Hlen Hnd Hun.
  assert (Hall : Forall (fun v => Forall (resolved s) (terms v)) (Inputs h)).
  { apply Forall_forall. intros v Hin. apply Forall_forall. intros t Ht.
    exact (Hres v t Hin Ht). }
  destruct (evalInputs_resolved s (Inputs h) 0 (proj1 Hwf)
              (inputsInRange_Forall s h Hrange) Hall) as (vals0 & _ & Hvals & _).
  destruct (solveWithHint_reaches_call s pool wireID h _ vals0 (proj1 Hwf)
              Hrange Hres Hw Hf Hvals) as (lambda & pool1 & Hreach).
  assert (Hl : len vals0 = len (Inputs h)).
  { unfold len. f_equal. symmetry. eapply Forall2_length. exact Hvals. }
  set (outputs := lambda :: (GetN (Z.to_nat nOut - 1) pool1).1).
  destruct (callHint_assigns s pool1 (hint.NewFixedHint fn nIn nOut) h vals0 lambda
              nOut outputs ws outputs (Some (ErrInputArity (len (Inputs h)) nIn)))
    as (s' & pool' & Hrun & Hnb & Hset & _); auto.
  - cbn [hint.Call hint.NewFixedHint]. unfold hint.fixedArgumentsFunction_Call.
    cbn [hint.nIn]. unfold len in *. rewrite length_map.
    destruct (Z.eqb_spec (Z.of_nat (length vals0)) nIn) as [Heq|_]; [lia|].
    simpl. rewrite Hl. reflexivity.
  - exists s', pool'. rewrite Hreach. split; [exact Hrun|]. split; [exact Hnb|].
    intros w Hin. apply list_elem_of_lookup in Hin. destruct Hin as [k Hk].
    destruct (lookup_lt_is_Some_2 (writeBack outputs outputs) k) as [o Ho].
    + rewrite writeBack_length. unfold outputs. simpl. rewrite GetN_length.
      apply lookup_lt_Some in Hk. lia.
    + exact (proj2 (Hset k w o Hk Ho)).
Qed.

Lemma oneInput_inRange : inputsInRange examples.solving samples.oneInput.
Proof.
  intros v t Hv Ht. unfold samples.oneInput in Hv. cbn [Inputs] in Hv.
  apply list_elem_of_singleton in Hv. subst v.
  apply list_elem_of_singleton in Ht. subst t.
  unfold termInRange, len. cbn; lia.
Qed.

Lemma solveWithHint_arity_mismatch_witness :
  len (Inputs samples.oneInput) <> 2 /\
  exists s' pool',
    @solveWithHint examples.consts examples.solving [] 3 samples.oneInput
    = Ok (s', pool', Some (ErrInputArity 1 2)) /\
    nbSolved s' = 5.
Proof.
  split; [discriminate|].
  destruct (@solveWithHint_arity_mismatch examples.consts examples.solving [] 3
              samples.oneInput examples.double 2 2 [3; 4])
    as (s' & pool' & Hrun & Hnb & _).
  - exact solving_wellFormed.
  - exact oneInput_inRange.
  - intros v t Hv Ht. unfold samples.oneInput in Hv. cbn [Inputs] in Hv.
    apply list_elem_of_singleton in Hv. subst v.
    apply list_elem_of_singleton in Ht. subst t. right. reflexivity.
  - reflexivity.
  - exact solving_has_double.
  - discriminate.
  - lia.
  - reflexivity.
  - reflexivity.
  - repeat constructor; rewrite ?elem_of_cons, ?elem_of_nil; lia.
  - intros w Hw. apply elem_of_cons in Hw. destruct Hw as [->|Hw]; [reflexivity|].
    apply list_elem_of_singleton in Hw. subst w. reflexivity.
  - exists s', pool'. split; [exact Hrun|exact Hnb].
Defined.

(** X14: without a function for the hint's identifier, [solveWithHint]
    does not look at the hint's inputs and changes nothing: for a wire of the
    solution it returns [nil] if the wire is solved and the error "missing
    hint function" if it is not, with the solution and the pool as they
    were. *)
Theorem solveWithHint_missing_function `{C : Consts} (s : solution)
    (pool : bigIntPool) (wireID : Z) (h : Hint) :
  mHintsFunctions s !! ID h = None ->
  0 <= wireID < len (solved s) ->
  exists err,
    solveWithHint s pool wireID h = Ok (s, pool, err) /\
    (index (solved s) wireID = Ok true -> err = None) /\
    (index (solved s) wireID = Ok false -> err = Some ErrMissingHint).
Proof.
  intros Hf Hrange. destruct (index_in_range _ _ Hrange) as [b Hb].
  unfold solveWithHint. rewrite Hb. simpl. destruct b.
  - exists None. split; [reflexivity|]. split; [reflexivity|discriminate].
  - rewrite Hf. exists (Some ErrMissingHint).
    split; [reflexivity|]. split; [discriminate|reflexivity].
Qed.

Lemma solveWithHint_missing_function_witness :
  mHintsFunctions examples.solving !! ID samples.unknownHint = None /\
  @solveWithHint examples.consts examples.solving [99] 3 samples.unknownHint
  = Ok (examples.solving, [99], Some ErrMissingHint).
Proof.
  assert (Hnone : mHintsFunctions examples.solving !! ID samples.unknownHint = None).
  { unfold examples.solving, samples.unknownHint. cbn [mHintsFunctions ID].
    rewrite !lookup_insert_ne, lookup_empty;
      [reflexivity|rewrite UUID_undefinedFixed; lia|rewrite UUID_doubleFixed; lia]. }
  split; [exact Hnone|].
  destruct (@solveWithHint_missing_function examples.consts examples.solving [99] 3
              samples.unknownHint Hnone) as (err & Hrun & _ & Herr).
  - unfold len; cbn; lia.
  - rewrite Hrun, (Herr eq_refl). reflexivity.
Defined.

(** *** The scratch pool *)

Lemma GetN_rest_length (n : nat) (pool : bigIntPool) :
  length (GetN n pool).2 = (length pool - n)%nat.
Proof.
  revert pool. induction n as [|n IH]; intros pool; simpl; [lia|].
  destruct pool as [|x pool]; simpl.
  - specialize (IH []). destruct (GetN n []) as [xs rest]. simpl in *. lia.
  - specialize (IH pool). destruct (GetN n pool) as [xs rest]. simpl in *. lia.
Qed.

Lemma PutAll_length (xs : list Z) (pool : bigIntPool) :
  length (PutAll xs pool) = (length xs + length pool)%nat.
Proof.
  unfold PutAll. revert pool. induction xs as [|x xs IH]; intros pool; simpl; [lia|].
  rewrite IH. unfold Put. simpl. lia.
Qed.

(** X15: on every path on which [solveWithHint] returns, each integer it
    took from the scratch pool has been put back: the pool holds at least as
    many integers after the call as before. *)
Theorem solveWithHint_releases_buffers `{C : Consts} (s s' : solution)
    (pool pool' : bigIntPool) (wireID : Z) (h : Hint) (err : option error) :
  solveWithHint s pool wireID h = Ok (s', pool', err) ->
  (length pool <= length pool')%nat.
Proof.
  unfold solveWithHint.
  destruct (index (solved s) wireID) as [[|]|]; simpl; try discriminate.
  { intros [= _ <- _]. lia. }
  destruct (mHintsFunctions s !! ID h) as [f|]; [|intros [= _ <- _]; lia].
  pose proof (GetN_rest_length (length (Inputs h)) pool) as H1.
  destruct (GetN (length (Inputs h)) pool) as [junk pool1]. simpl in H1.
  assert (H2 : (length pool1 - 1 <= length (Get pool1).2)%nat).
  { destruct pool1; simpl; lia. }
  destruct (Get pool1) as [lambda pool2]. simpl in H2.
  destruct (evalInputs s (Inputs h) lambda) as [[[inputs lam] ok]|] eqn:Hin;
    simpl; [|discriminate].
  apply evalInputs_length in Hin.
  destruct ok; simpl.
  - unfold callHint.
    destruct (hint.TotalOutputs f (len inputs) <? 0); [discriminate|].
    destruct (hint.TotalOutputs f (len inputs) =? 0); [discriminate|].
    pose proof (GetN_rest_length (Z.to_nat (hint.TotalOutputs f (len inputs)) - 1) pool2) as H3.
    pose proof (GetN_length (Z.to_nat (hint.TotalOutputs f (len inputs)) - 1) pool2) as H4.
    destruct (GetN _ pool2) as [others pool3]. simpl in H3, H4.
    destruct (hint.Call f _ _ _) as [[res e]|]; cbn [bind]; [|discriminate].
    destruct (setOutputs s (Wires h) _ 0) as [s1|]; cbn [bind]; [|discriminate].
    intros [= _ <- _].
    match goal with
    | |- context [PutAll ?o (PutAll _ _)] =>
        change o with (writeBack (lam :: others) res)
    end.
    rewrite !PutAll_length, writeBack_length, length_map. simpl. lia.
  - intros [= _ <- _]. rewrite PutAll_length. unfold Put. simpl. lia.
Qed.

Lemma solveWithHint_releases_buffers_witness :
  exists s' pool',
    @solveWithHint examples.consts examples.solving [99; 98; 97] 3
      examples.earlyCall = Ok (s', pool', Some ErrWireNotInstantiated) /\
    (3 <= length pool')%nat.
Proof.
  assert (Hrun : exists s' pool',
             @solveWithHint examples.consts examples.solving [99; 98; 97] 3
               examples.earlyCall = Ok (s', pool', Some ErrWireNotInstantiated)).
  { vm_compute. eexists _, _. reflexivity. }
  destruct Hrun as (s' & pool' & Hrun). exists s', pool'.
  split; [exact Hrun|].
  exact (@solveWithHint_releases_buffers examples.consts _ _ _ _ _ _ _ Hrun).
Defined.

(** *** The log evaluator: spans and [printLogs] *)

Lemma logLoop_app `{C : Consts} `{P : Printing} (s : solution) (st : logState)
    (ts ts' : list Term) :
  logLoop s st (ts ++ ts')
  = bind (logLoop s st ts) (fun st' => logLoop s st' ts').
Proof.
  revert st. induction ts as [|t ts IH]; intros st; simpl; [reflexivity|].
  destruct (logStep s st t) as [st1|]; simpl; [apply IH|reflexivity].
Qed.

Lemma logStep_in_span `{C : Consts} `{P : Printing} (s : solution) (st : logState)
    (t : Term) :
  isEval st = true ->
  Term_eqb t TermDelimitor = false ->
  length (values s) = length (solved s) ->
  termInRange s t ->
  (resolved s t ->
     exists x, termValue s t = Ok x /\
       logStep s st t = Ok (setEval st (fr.Add (eval st) x))) /\
  (unresolved s t ->
     logStep s st t
     = Ok {| toResolve := toResolve st; isEval := isEval st; eval := eval st;
             missingValue := true |}).
Proof.
  intros Heval Hdelim Hlen Hrange. unfold logStep, Unpack. rewrite Hdelim, Heval.
  split.
  - intros Hres. destruct (termValue_returns s t Hlen Hrange Hres) as [x Hx].
    exists x. split; [exact Hx|]. unfold termValue in Hx.
    destruct (Visibility_eqb (visibility t) Virtual) eqn:Hvis.
    + rewrite Hx. reflexivity.
    + destruct Hres as [Hv|Hs]; [apply Visibility_eqb_eq in Hv; congruence|].
      rewrite Hs. simpl. rewrite Hx. reflexivity.
  - intros [Hnv Hun].
    destruct (Visibility_eqb (visibility t) Virtual) eqn:Hvis.
    + apply Visibility_eqb_eq in Hvis. contradiction.
    + rewrite Hun. reflexivity.
Qed.

Lemma logLoop_in_span `{C : Consts} `{P : Printing} (s : solution) (ts : list Term)
    (st : logState) :
  isEval st = true ->
  Forall (fun t => Term_eqb t TermDelimitor = false) ts ->
  length (values s) = length (solved s) ->
  Forall (termInRange s) ts ->
  exists st',
    logLoop s st ts = Ok st' /\
    isEval st' = true /\
    toResolve st' = toResolve st /\
    (missingValue st = true -> missingValue st' = true) /\
    (Forall (resolved s) ts ->
       missingValue st' = missingValue st /\
       exists total, linearValue s ts = Ok total /\
         forall a, eval st = a mod fr.Modulus ->
           eval st' = (a + total) mod fr.Modulus) /\
    (Exists (unresolved s) ts -> missingValue st' = true).
Proof.
  intros Heval Hdelim Hlen Hrange. revert st Heval.
  induction ts as [|t ts IH]; intros st Heval.
  - exists st. split; [reflexivity|]. repeat split; auto.
    + exists 0. split; [reflexivity|]. intros a ->. rewrite Z.add_0_r. reflexivity.
    + intros Hex. inversion Hex.
  - apply Forall_cons in Hdelim, Hrange.
    destruct Hdelim as [Hd Hdelim], Hrange as [Hr Hrange].
    destruct (logStep_in_span s st t Heval Hd Hlen Hr) as [Hok Hbad].
    destruct (resolved_or_not s [t]) as [Hres|Hun]; [constructor; auto|..].
    + apply Forall_cons in Hres. destruct Hres as [Hres _].
      destruct (Hok Hres) as (x & Hx & Hstep).
      destruct (IH Hdelim Hrange (setEval st (fr.Add (eval st) x)) Heval)
        as (st' & Hrun & He & Ht & Hm & Hall & Hex).
      exists st'. cbn [logLoop]. rewrite Hstep. cbn [bind].
      split; [exact Hrun|]. split; [exact He|]. split; [exact Ht|].
      split; [exact Hm|]. split.
      * intros Hfa. apply Forall_cons in Hfa. destruct Hfa as [_ Hfa].
        destruct (Hall Hfa) as (Hmiss & total & Hsum & Hev).
        split; [exact Hmiss|]. exists (x + total). cbn [linearValue].
        rewrite Hx. cbn [bind]. rewrite Hsum. cbn [bind].
        split; [reflexivity|]. intros a Ha.
        rewrite (Hev (a + x)); [f_equal; ring|].
        simpl. unfold fr.Add. rewrite Ha.
        apply Z.add_mod_idemp_l. pose proof Modulus_pos; lia.
      * intros Hexs. apply Exists_cons in Hexs. destruct Hexs as [[Hnv Hf]|Hexs].
        -- destruct Hres as [Hv|Hs]; congruence.
        -- apply Hex. exact Hexs.
    + apply Exists_cons in Hun. destruct Hun as [Hun|Hun]; [|inversion Hun].
      destruct (IH Hdelim Hrange
                  {| toResolve := toResolve st; isEval := isEval st;
                     eval := eval st; missingValue := true |} Heval)
        as (st' & Hrun & He & Ht & Hm & Hall & Hex).
      exists st'. cbn [logLoop]. rewrite (Hbad Hun). cbn [bind].
      split; [exact Hrun|]. split; [exact He|].
      split; [exact Ht|]. split; [intros _; apply Hm; reflexivity|]. split.
      * intros Hfa. apply Forall_cons in Hfa. destruct Hfa as [Hres _].
        destruct Hun as [Hnv Hf]. destruct Hres as [Hv|Hs]; congruence.
      * intros _. apply Hm. reflexivity.
Qed.

(** X16: span evaluation.  Of the terms between two delimiters of a log
    entry (in range, none of them the delimiter), [logValue] makes one
    argument of the format: the text of their sum in the field when every
    wire among them is solved, and "<unsolved>" when one is not.  A span that
    the entry does not close makes no argument at all. *)
Theorem logValue_span `{C : Consts} `{P : Printing} (s : solution)
    (format : string) (ts : list Term) :
  length (values s) = length (solved s) ->
  Forall (termInRange s) ts ->
  Forall (fun t => Term_eqb t TermDelimitor = false) ts ->
  (Forall (resolved s) ts ->
     exists total,
       linearValue s ts = Ok total /\
       logValue s (mkLogEntry format (TermDelimitor :: ts ++ [TermDelimitor]))
       = Ok (Sprintf format [Element_String (total mod fr.Modulus)])) /\
  (Exists (unresolved s) ts ->
     logValue s (mkLogEntry format (TermDelimitor :: ts ++ [TermDelimitor]))
     = Ok (Sprintf format [unsolvedVariable])) /\
  logValue s (mkLogEntry format (TermDelimitor :: ts)) = Ok (Sprintf format []).
Proof.
  intros Hlen Hrange Hdelim.
  assert (Hdd : Term_eqb TermDelimitor TermDelimitor = true)
    by (apply Term_eqb_eq; reflexivity).
  set (st1 := {| toResolve := []; isEval := true; eval := fr.zero;
                 missingValue := false |}).
  destruct (logLoop_in_span s ts st1 eq_refl Hdelim Hlen Hrange)
    as (st' & Hrun & He & Ht & _ & Hall & Hex).
  assert (Hopen : forall rest,
            logLoop s {| toResolve := []; isEval := false; eval := fr.zero;
                         missingValue := false |} (TermDelimitor :: ts ++ rest)
            = logLoop s st' rest).
  { intros rest. cbn [logLoop]. unfold logStep at 1. rewrite Hdd. simpl.
    fold st1. rewrite logLoop_app, Hrun. reflexivity. }
  assert (Hclose : logLoop s st' [TermDelimitor]
                   = Ok (append {| toResolve := toResolve st'; isEval := false;
                                   eval := eval st';
                                   missingValue := missingValue st' |}
                           (if missingValue st' then unsolvedVariable
                            else Element_String (eval st')))).
  { cbn [logLoop]. unfold logStep. rewrite Hdd, He. simpl.
    destruct (missingValue st'); reflexivity. }
  split; [|split].
  - intros Hres. destruct (Hall Hres) as (Hmiss & total & Hsum & Hev).
    exists total. split; [exact Hsum|].
    unfold logValue. cbn [ToResolve Format]. rewrite Hopen, Hclose. simpl.
    rewrite Hmiss, Ht. simpl. rewrite (Hev 0); [reflexivity|].
    simpl. unfold fr.zero. symmetry. apply Z.mod_0_l. pose proof Modulus_pos; lia.
  - intros Hun. unfold logValue. cbn [ToResolve Format].
    rewrite Hopen, Hclose. simpl. rewrite (Hex Hun), Ht. reflexivity.
  - unfold logValue. cbn [ToResolve Format].
    rewrite <- (app_nil_r ts), Hopen. simpl. rewrite Ht. reflexivity.
Qed.

Lemma logValue_span_witness :
  Forall (resolved examples.partly) samples.span /\
  @logValue examples.consts examples.printing examples.partly
    (mkLogEntry "sum=%s"
       (@TermDelimitor examples.consts :: samples.span
        ++ [@TermDelimitor examples.consts]))
  = Ok "sum=%s 44"%string /\
  @logValue examples.consts examples.printing examples.partly
    (mkLogEntry "sum=%s" (@TermDelimitor examples.consts :: samples.span))
  = Ok "sum=%s"%string.
Proof.
  assert (Hres : Forall (resolved examples.partly) samples.span).
  { repeat constructor; (left; reflexivity) || (right; reflexivity). }
  split; [exact Hres|].
  destruct (@logValue_span examples.consts examples.printing examples.partly
              "sum=%s" samples.span) as (Hsum & _ & Hopen).
  - reflexivity.
  - repeat constructor; unfold len; cbn; lia.
  - repeat constructor.
  - split; [|exact Hopen].
    destruct (Hsum Hres) as (total & Htotal & Hlog).
    assert (total = 44) by (vm_compute in Htotal; congruence). subst total.
    rewrite Hlog. reflexivity.
Defined.

Lemma printLogs_loop_lines `{C : Consts} `{P : Printing} (s : solution)
    (written : list string) (logs : list LogEntry) (lines : list string) :
  Forall2 (fun log line => logValue s log = Ok line) logs lines ->
  cs_logs.printLogs_loop s written logs = Ok (written ++ lines).
Proof.
  intros Hall. revert written.
  induction Hall as [|log line logs lines Hlog _ IH]; intros written; simpl.
  - rewrite app_nil_r. reflexivity.
  - rewrite Hlog. simpl. rewrite IH, <- app_assoc. reflexivity.
Qed.

(** X17: [printLogs] without a writer returns at once, whatever the
    entries are (one whose evaluation would panic is not evaluated); with a
    writer, it writes the line of every entry, in the order of the entries,
    after what the writer already holds; and it panics with the first entry
    whose evaluation panics. *)
Theorem printLogs_writes_each_line `{C : Consts} `{P : Printing} (s : solution)
    (written : list string) :
  (forall logs, cs_logs.printLogs s None written logs = Ok written) /\
  (forall w logs lines,
     Forall2 (fun log line => logValue s log = Ok line) logs lines ->
     cs_logs.printLogs s (Some w) written logs = Ok (written ++ lines)) /\
  (forall w logs lines log logs' msg,
     Forall2 (fun log line => logValue s log = Ok line) logs lines ->
     logValue s log = Panic msg ->
     cs_logs.printLogs s (Some w) written (logs ++ log :: logs') = Panic msg).
Proof.
  split; [reflexivity|]. split.
  - intros w logs lines Hall. apply printLogs_loop_lines. exact Hall.
  - intros w logs lines log logs' msg Hall Hpanic. unfold cs_logs.printLogs.
    revert written. induction Hall as [|l line logs lines Hl _ IH]; intros written; simpl.
    + rewrite Hpanic. reflexivity.
    + rewrite Hl. simpl. apply IH.
Qed.

(** *** Linear expressions: copies, swaps and the order *)

Lemma Equal_Some (a b : list Term) : Equal (Some a) (Some b) = true <-> a = b.
Proof.
  unfold Equal, Len, len.
  change (terms (Some a)) with a. change (terms (Some b)) with b.
  cbn [isNil Bool.eqb].
  destruct (Z.eqb_spec (Z.of_nat (length a)) (Z.of_nat (length b))) as [Hl|Hl];
    cbn [negb].
  - apply Equal_loop_eq. lia.
  - split; [discriminate|]. intros ->. contradiction.
Qed.

(** X18: [Clone] makes a slice that is never [nil] and holds the same terms;
    so two copies are [Equal] exactly when the originals hold the same terms
    at every position, and an expression is [Equal] to its own copy exactly
    when it is not [nil]. *)
Theorem Clone_then_Equal (v o : Variable_) :
  isNil (Clone v) = false /\
  terms (Clone v) = terms v /\
  (Equal (Clone v) (Clone o) = true <-> terms v = terms o) /\
  (Equal v (Clone v) = true <-> isNil v = false).
Proof.
  split; [reflexivity|]. split; [reflexivity|]. split.
  - unfold Clone. apply Equal_Some.
  - destruct v as [l|]; unfold Clone.
    + change (terms (Some l)) with l. rewrite Equal_Some. cbn [isNil]. tauto.
    + split; discriminate.
Qed.

Lemma index_out_of_bounds {A : Type} (l : list A) (i : Z) :
  ~ (0 <= i < len l) -> index l i = Panic index_out_of_range.
Proof.
  intros Hout. unfold index. destruct (Z.ltb_spec i 0); [reflexivity|].
  destruct (l !! Z.to_nat i) eqn:Hl; [|reflexivity].
  apply lookup_lt_Some in Hl. unfold len in Hout. lia.
Qed.

Lemma Swap_in_range (l : list Term) (i j : Z) (a b : Term) :
  index l i = Ok a -> index l j = Ok b ->
  compiled_Variable.Swap (Some l) i j
  = Ok (Some (<[Z.to_nat j := a]> (<[Z.to_nat i := b]> l))).
Proof.
  intros Ha Hb. unfold compiled_Variable.Swap.
  change (terms (Some l)) with l. rewrite Hb, Ha. cbn [bind].
  pose proof (index_Ok_lt _ _ _ Ha) as Hi.
  pose proof (index_Ok_lt _ _ _ Hb) as Hj.
  rewrite store_in_range by exact Hi. cbn [bind].
  rewrite store_in_range; [reflexivity|].
  unfold len in *. rewrite length_insert. exact Hj.
Qed.

(** X19: [Swap] on two positions of the expression exchanges the two terms
    and leaves every other position and the length as they were; swapping
    the same two positions again gives the expression back.  With a position
    outside the expression (always so for [nil] or an empty expression) it
    panics. *)
Theorem Swap_exchanges_two_terms (v : Variable_) (i j : Z) :
  (forall a b,
     index (terms v) i = Ok a -> index (terms v) j = Ok b ->
     exists v',
       compiled_Variable.Swap v i j = Ok v' /\
       index (terms v') i = Ok b /\
       index (terms v') j = Ok a /\
       (forall k, k <> i -> k <> j -> index (terms v') k = index (terms v) k) /\
       Len v' = Len v /\
       compiled_Variable.Swap v' i j = Ok v) /\
  (~ (0 <= i < Len v /\ 0 <= j < Len v) ->
   compiled_Variable.Swap v i j = Panic index_out_of_range).
Proof.
  split.
  - intros a b Ha Hb.
    destruct v as [l|]; [|unfold index in Ha; destruct (i <? 0); discriminate].
    change (terms (Some l)) with l in *.
    pose proof (index_Ok_lt _ _ _ Ha) as Hi.
    pose proof (index_Ok_lt _ _ _ Hb) as Hj.
    apply index_Ok in Ha as Ha'. destruct Ha' as [_ Hla].
    apply index_Ok in Hb as Hb'. destruct Hb' as [_ Hlb].
    unfold len in Hi, Hj.
    set (l' := <[Z.to_nat j := a]> (<[Z.to_nat i := b]> l)).
    assert (Hi' : index l' i = Ok b).
    { unfold l'. destruct (Z.eq_dec i j) as [->|Hne].
      - assert (a = b) by congruence. subst b.
        apply index_insert_same. unfold len. rewrite length_insert. lia.
      - rewrite index_insert_other by lia.
        apply index_insert_same. unfold len. lia. }
    assert (Hj' : index l' j = Ok a).
    { unfold l'. apply index_insert_same. unfold len. rewrite length_insert. lia. }
    exists (Some l'). rewrite (Swap_in_range l i j a b Ha Hb). fold l'.
    change (terms (Some l')) with l'.
    split; [reflexivity|]. split; [exact Hi'|]. split; [exact Hj'|]. split.
    { intros k Hki Hkj. unfold l'. rewrite !index_insert_other by lia. reflexivity. }
    split.
    { unfold Len, len. change (terms (Some l')) with l'.
      change (terms (Some l)) with l. unfold l'. rewrite !length_insert. reflexivity. }
    rewrite (Swap_in_range l' i j b a Hi' Hj'). do 2 f_equal.
    apply list_eq. intros k. unfold l'.
    destruct (decide (k = Z.to_nat j)) as [->|Hkj].
    + rewrite list_lookup_insert_eq by (rewrite !length_insert; lia).
      symmetry. exact Hlb.
    + rewrite list_lookup_insert_ne by congruence.
      destruct (decide (k = Z.to_nat i)) as [->|Hki].
      * rewrite list_lookup_insert_eq by (rewrite !length_insert; lia).
        symmetry. exact Hla.
      * rewrite !list_lookup_insert_ne by congruence. reflexivity.
  - intros Hout. unfold compiled_Variable.Swap, Len in *.
    destruct (index (terms v) j) as [b|msg] eqn:Hb.
    + destruct (index (terms v) i) as [a|msg] eqn:Ha.
      * exfalso. apply Hout.
        split; [eapply index_Ok_lt; exact Ha|eapply index_Ok_lt; exact Hb].
      * cbn [bind]. apply index_panics in Ha. rewrite Ha. reflexivity.
    + cbn [bind]. apply index_panics in Hb. rewrite Hb. reflexivity.
Qed.

Lemma Less_at (rank : Visibility -> Z) (v : Variable_) (i j : Z) (a b : Term) :
  index (terms v) i = Ok a -> index (terms v) j = Ok b ->
  compiled_Variable.Less rank v i j
  = Ok (if Visibility_eqb (visibility a) (visibility b) then vID a <? vID b
        else rank (visibility b) <? rank (visibility a)).
Proof.
  intros Ha Hb. unfold compiled_Variable.Less, Unpack. rewrite Ha. cbn [bind].
  rewrite Hb. cbn [bind]. destruct (Visibility_eqb _ _); reflexivity.
Qed.

(** X20: whatever numbers the visibility tags are, [Less] is a strict
    order on the positions of an expression: no position is less than
    itself, two positions are never each less than the other, and less than
    is transitive.  If the tags have different numbers, two positions that
    are not less than each other hold terms of the same visibility and the
    same wire. *)
Theorem Less_is_a_strict_order (rank : Visibility -> Z) (v : Variable_)
    (i j k : Z) (a b c : Term) :
  index (terms v) i = Ok a ->
  index (terms v) j = Ok b ->
  index (terms v) k = Ok c ->
  compiled_Variable.Less rank v i i = Ok false /\
  (compiled_Variable.Less rank v i j = Ok true ->
   compiled_Variable.Less rank v j i = Ok false) /\
  (compiled_Variable.Less rank v i j = Ok true ->
   compiled_Variable.Less rank v j k = Ok true ->
   compiled_Variable.Less rank v i k = Ok true) /\
  ((forall x y, rank x = rank y -> x = y) ->
   compiled_Variable.Less rank v i j = Ok false ->
   compiled_Variable.Less rank v j i = Ok false ->
   visibility a = visibility b /\ vID a = vID b).
Proof.
  intros Ha Hb Hc.
  rewrite (Less_at rank v i i a a Ha Ha), (Less_at rank v i j a b Ha Hb),
    (Less_at rank v j i b a Hb Ha), (Less_at rank v j k b c Hb Hc),
    (Less_at rank v i k a c Ha Hc).
  assert (Hrefl : forall x, Visibility_eqb x x = true)
    by (intros x; apply Visibility_eqb_eq; reflexivity).
  assert (Hsym : forall x y, Visibility_eqb x y = Visibility_eqb y x)
    by (intros [] []; reflexivity).
  rewrite Hrefl, (Hsym (visibility b) (visibility a)).
  split; [f_equal; lia|].
  destruct (Visibility_eqb (visibility a) (visibility b)) eqn:Eab;
    destruct (Visibility_eqb (visibility b) (visibility c)) eqn:Ebc;
    destruct (Visibility_eqb (visibility a) (visibility c)) eqn:Eac;
    rewrite ?Visibility_eqb_eq in *;
    repeat split; intros;
    repeat match goal with
           | H : Ok _ = Ok _ |- _ => injection H as H
           end;
    try (f_equal; lia); try congruence; try lia.
  all: try (exfalso;
            match goal with
            | E : Visibility_eqb ?x ?y = false |- _ =>
                assert (x = y) by congruence;
                assert (Visibility_eqb x y = true) by (apply Visibility_eqb_eq; assumption);
                congruence
            end).
  all: try (match goal with
            | Hinj : forall x y, ?r x = ?r y -> x = y |- _ =>
                exfalso;
                match goal with
                | E : Visibility_eqb ?x ?y = false |- _ =>
                    assert (x = y) by (apply Hinj; lia);
                    assert (Visibility_eqb x y = true) by (apply Visibility_eqb_eq; assumption);
                    congruence
                end
            end).
  all: repeat match goal with
              | H : (_ <? _) = true |- _ => apply Z.ltb_lt in H
              end.
  all: match goal with
       | E : visibility ?x = visibility ?y |- _ => rewrite E in *; lia
       end.
Qed.

Lemma Less_is_a_strict_order_witness :
  index (terms examples.secretPlusPublic) 0 = Ok (mkTerm 1 0 Public) /\
  index (terms examples.secretPlusPublic) 1 = Ok (mkTerm 1 1 Secret) /\
  compiled_Variable.Less visibilityRank examples.secretPlusPublic 0 1 = Ok true /\
  compiled_Variable.Less visibilityRank examples.secretPlusPublic 1 0 = Ok false.
Proof.
  split; [reflexivity|]. split; [reflexivity|]. split; [reflexivity|].
  destruct (Less_is_a_strict_order visibilityRank examples.secretPlusPublic 0 1 1
              (mkTerm 1 0 Public) (mkTerm 1 1 Secret) (mkTerm 1 1 Secret)
              eq_refl eq_refl eq_refl) as (_ & Hasym & _).
  apply Hasym. reflexivity.
Defined.

(** [AssertIsSet] panics, with the "no value" error, exactly on the
    expressions without terms, [nil] or empty; an expression that
    [IsConstant] accepts has exactly one term and passes it. *)
Lemma AssertIsSet_panics_iff_empty (v : Variable_) :
  (compiled_Variable.AssertIsSet v = Panic compiled_Variable.errNoValue
   <-> terms v = []) /\
  (compiled_Variable.AssertIsSet v = Ok tt <-> terms v <> []) /\
  (IsConstant v = true ->
   Len v = 1 /\ compiled_Variable.AssertIsSet v = Ok tt).
Proof.
  unfold compiled_Variable.AssertIsSet, IsConstant, Len, len.
  destruct (terms v) as [|t [|t' ts]]; simpl.
  - repeat split; try discriminate; try congruence.
  - repeat split; try discriminate; try congruence.
  - repeat split; try discriminate; try congruence.
Qed.

(** *** [solveWithHint]: an output wire that is already solved *)

Lemma setOutputs_solved_twice (wires pre outputs : list Z) (w : Z) (s : solution)
    (n : nat) :
  wellFormed s ->
  (length pre < length outputs)%nat ->
  (forall (k : nat) p, pre !! k = Some p -> wires !! (n + k)%nat = Some p) ->
  wires !! (n + length pre)%nat = Some w ->
  NoDup pre ->
  (forall p, p ∈ pre -> index (solved s) p = Ok false) ->
  index (solved s) w = Ok true \/ w ∈ pre ->
  setOutputs s wires outputs (Z.of_nat n) = Panic solved_twice.
Proof.
  revert s n outputs.
  induction pre as [|p pre IH]; intros s n outputs Hwf Hlen Hwires Hw Hnd Hun Hbad.
  - destruct outputs as [|o outputs]; [simpl in Hlen; lia|].
    destruct Hbad as [Hsolved|Hin]; [|apply elem_of_nil in Hin; contradiction].
    simpl in Hw. rewrite Nat.add_0_r in Hw.
    cbn [setOutputs].
    assert (Hidx : index wires (Z.of_nat n) = Ok w).
    { apply index_Ok. split; [lia|]. rewrite Nat2Z.id. exact Hw. }
    rewrite Hidx. cbn [bind]. rewrite (set_solved s w _ Hsolved). reflexivity.
  - destruct outputs as [|o outputs]; [simpl in Hlen; lia|]. simpl in Hlen.
    apply NoDup_cons in Hnd. destruct Hnd as [Hfresh Hnd].
    assert (Hp : index (solved s) p = Ok false) by (apply Hun; left).
    pose proof (index_Ok_lt _ _ _ Hp) as Hrange.
    pose proof (set_unsolved s p (fr.SetBigInt o) Hwf Hp) as Hset.
    pose proof (set_wellFormed _ _ _ _ Hwf Hset) as Hwf1.
    assert (Hidx : index wires (Z.of_nat n) = Ok p).
    { apply index_Ok. split; [lia|]. rewrite Nat2Z.id.
      replace n with (n + 0)%nat by lia. apply Hwires. reflexivity. }
    cbn [setOutputs]. rewrite Hidx. cbn [bind]. rewrite Hset. cbn [bind].
    replace (Z.of_nat n + 1) with (Z.of_nat (S n)) by lia.
    apply IH.
    + exact Hwf1.
    + lia.
    + intros k q Hk. replace (S n + k)%nat with (n + S k)%nat by lia.
      apply Hwires. exact Hk.
    + replace (S n + length pre)%nat with (n + length (p :: pre))%nat
        by (simpl; lia). exact Hw.
    + exact Hnd.
    + intros q Hq. simpl. rewrite index_insert_other.
      * apply Hun. right. exact Hq.
      * lia.
      * intros ->. contradiction.
    + simpl. destruct (Z.eq_dec w p) as [->|Hne].
      * left. apply index_insert_same. lia.
      * destruct Hbad as [Hsolved|Hin].
        -- left. rewrite index_insert_other by lia. exact Hsolved.
        -- apply elem_of_cons in Hin. destruct Hin as [?|Hin]; [contradiction|].
           right. exact Hin.
Qed.

(** X21: the test that lets [solveWithHint] skip a solved wire looks at
    the wire asked for only.  When the call of the hint returns (with or
    without an error) and, among the output wires of the hint, one is
    already solved or occurs twice, [solveWithHint] panics with "solving the
    same wire twice should never happen." *)
Theorem solveWithHint_panics_on_solved_output `{C : Consts} (s : solution)
    (pool pool1 : bigIntPool) (wireID : Z) (h : Hint) (f : hint.AnnotatedFunction)
    (inputs : list Z) (lambda n : Z) (outputs res pre : list Z) (w : Z)
    (err : option error) :
  solveWithHint s pool wireID h = callHint s pool1 f h inputs lambda ->
  n = hint.TotalOutputs f (len inputs) ->
  outputs = lambda :: (GetN (Z.to_nat n - 1) pool1).1 ->
  hint.Call f ecc.BLS12_381 (map (fun x => x mod fr.Modulus) inputs) outputs
  = Ok (res, err) ->
  wellFormed s ->
  (length pre < Z.to_nat n)%nat ->
  take (S (length pre)) (Wires h) = pre ++ [w] ->
  NoDup pre ->
  (forall p, p ∈ pre -> index (solved s) p = Ok false) ->
  index (solved s) w = Ok true \/ w ∈ pre ->
  solveWithHint s pool wireID h = Panic solved_twice.
Proof.
  intros Hreach Hn Hout Hcall Hwf Hlen Htake Hnd Hun Hbad.
  rewrite Hreach. unfold callHint. rewrite <- Hn.
  destruct (Z.ltb_spec n 0); [lia|].
  destruct (Z.eqb_spec n 0); [lia|].
  pose proof (GetN_length (Z.to_nat n - 1) pool1) as Hothers.
  destruct (GetN (Z.to_nat n - 1) pool1) as [others pool2]. simpl in Hout, Hothers.
  rewrite <- Hout, Hcall. cbn [bind].
  assert (Hlook : forall k x, (pre ++ [w]) !! k = Some x -> Wires h !! k = Some x).
  { intros k x Hk. rewrite <- Htake in Hk. apply lookup_take_Some in Hk. tauto. }
  assert (Hpanic : setOutputs s (Wires h) (writeBack outputs res) 0
                   = Panic solved_twice);
    [|rewrite Hpanic; reflexivity].
  apply (setOutputs_solved_twice (Wires h) pre (writeBack outputs res) w s 0 Hwf).
  - rewrite writeBack_length, Hout. simpl. lia.
  - intros k p Hk. apply Hlook. rewrite lookup_app_l; [exact Hk|].
    apply lookup_lt_Some in Hk. exact Hk.
  - apply Hlook. rewrite lookup_app_r by (simpl; lia).
    replace (0 + length pre - length pre)%nat with 0%nat by lia. reflexivity.
  - exact Hnd.
  - exact Hun.
  - exact Hbad.
Qed.

Lemma solveWithHint_panics_on_solved_output_witness :
  index (solved examples.solving) 1 = Ok true /\
  @solveWithHint examples.consts examples.solving [] 3 samples.overwriting
  = Panic solved_twice.
Proof.
  split; [reflexivity|].
  apply (@solveWithHint_panics_on_solved_output examples.consts examples.solving
           [] [] 3 samples.overwriting examples.doubleFixed [5; 7] 7 2
           [7; 0] [10; 14] [3] 1 None).
  - vm_compute. reflexivity.
  - reflexivity.
  - reflexivity.
  - reflexivity.
  - exact solving_wellFormed.
  - simpl. lia.
  - reflexivity.
  - apply NoDup_singleton.
  - intros p Hp. apply list_elem_of_singleton in Hp. subst p. reflexivity.
  - left. reflexivity.
Defined.
